(** * Signalling relay and client session machine of the WebRTC demo

    A shallow embedding of the signal server ([createServer]: the
    [connections] registry, [getConnection], [notifyClient],
    [handleMessage], the socket [close] handler) and of the browser-side
    [WebRTCClient] class (invite / accept / reject / disconnect, the ICE
    candidate queue, the [ready] handshake and the reconnect timer),
    together with the properties the design document states about them.

    Conventions of the embedding
    - JavaScript objects held by reference and owned by one field (the
      [RTCPeerConnection], the data channel, the candidate array of the
      active peer connection) are embedded by value inside the record that
      holds the reference.
    - Every handler runs to completion: an [await] on a browser primitive
      is resolved on the spot by an oracle ([RTC]) that says whether the
      primitive succeeds, so the effects of one handler are one contiguous
      trace.
    - Side effects on the outside world (socket sends, console warnings,
      transport calls, emitted events, timers) are recorded, in program
      order, in a trace. [console.debug] and [console.log] lines are not
      recorded. *)

From stdpp Require Import base strings list gmap.

Open Scope string_scope.
Open Scope list_scope.

Set Warnings "-clear-no-such-hyp".

(** ** Wire types ([types.ts]) *)

Module Peer.
Record t := mk { id : string; name : string; remove : option bool }.

(** The object literal [{...other, remove}]. *)
Definition with_remove (other : t) (r : option bool) : t :=
  {| id := id other; name := name other; remove := r |}.
End Peer.

(** [RTCIceCandidateInit] is opaque to the signalling layer. *)
Definition RTCIceCandidateInit := string.

Module IceCandidate.
Record t := mk { id : string; target : string; candidate : RTCIceCandidateInit }.
End IceCandidate.

(** [Offer] and [Answer]: an [RTCSessionDescriptionInit] ([type], optional
    [sdp]) extended with [source] and [target]. *)
Module Description.
Record t := mk { type : string; sdp : option string; source : string; target : string }.
End Description.

Definition Offer := Description.t.
Definition Answer := Description.t.

Module Reject.
Record t := mk { source : string; target : string }.
End Reject.

Inductive RtcMessage :=
| IdentifyMessage (data : Peer.t)
| IceCandidateMessage (data : IceCandidate.t)
| OfferMessage (data : Offer)
| AcceptMessage (data : Answer)
| RejectMessage (data : Reject.t).

(** What travels from the relay to a client: [RtcMessage | PeerMessage |
    ReadyMessage]. *)
Inductive ServerMessage :=
| Rtc (message : RtcMessage)
| PeerMessage (data : Peer.t)
| ReadyMessage (version : string) (id : string).

Inductive ClientMessage :=
| ChatMessage (data : string)
| DisconnectMessage.

#[global] Instance Peer_eq_dec : EqDecision Peer.t.
Proof. solve_decision. Defined.
#[global] Instance IceCandidate_eq_dec : EqDecision IceCandidate.t.
Proof. solve_decision. Defined.
#[global] Instance Description_eq_dec : EqDecision Description.t.
Proof. solve_decision. Defined.
#[global] Instance Reject_eq_dec : EqDecision Reject.t.
Proof. solve_decision. Defined.
#[global] Instance RtcMessage_eq_dec : EqDecision RtcMessage.
Proof. solve_decision. Defined.
#[global] Instance ServerMessage_eq_dec : EqDecision ServerMessage.
Proof. solve_decision. Defined.

(** A socket is known by its identity only. *)
Definition WebSocket := nat.

(** ** The signal server *)

Module Server.

(** [msg.data.target] of a message that is not an [identify]; an
    [identify] carries no target ([undefined]). *)
Definition target (msg : RtcMessage) : option string :=
  match msg with
  | IdentifyMessage _ => None
  | IceCandidateMessage d => Some (IceCandidate.target d)
  | OfferMessage d => Some (Description.target d)
  | AcceptMessage d => Some (Description.target d)
  | RejectMessage d => Some (Reject.target d)
  end.

(** [connections : Map<WebSocket, Peer>]. A JavaScript [Map] iterates in
    insertion order, so the registry is an association list; [set] on a
    present key overwrites in place, on an absent key appends. *)
Definition Connections := list (WebSocket * Peer.t).

Fixpoint get (connections : Connections) (socket : WebSocket) : option Peer.t :=
  match connections with
  | [] => None
  | (s, p) :: rest => if decide (s = socket) then Some p else get rest socket
  end.

Definition has (connections : Connections) (socket : WebSocket) : bool :=
  match get connections socket with Some _ => true | None => false end.

Fixpoint set (connections : Connections) (socket : WebSocket) (client : Peer.t)
  : Connections :=
  match connections with
  | [] => [(socket, client)]
  | (s, p) :: rest =>
      if decide (s = socket) then (s, client) :: rest
      else (s, p) :: set rest socket client
  end.

Fixpoint delete (connections : Connections) (socket : WebSocket) : Connections :=
  match connections with
  | [] => []
  | (s, p) :: rest =>
      if decide (s = socket) then delete rest socket
      else (s, p) :: delete rest socket
  end.

(** Effects of the server, in program order. The two registry mutations
    are part of the trace so that their position among the sends can be
    stated. *)
Inductive Effect :=
| Send (socket : WebSocket) (message : ServerMessage)
| AwaitAll (notifications : nat)
| MapSet (socket : WebSocket) (client : Peer.t)
| MapDelete (socket : WebSocket).

#[global] Instance Effect_eq_dec : EqDecision Effect.
Proof. solve_decision. Defined.

(** [send(socket, message)]: [socket?.send(JSON.stringify(message))]. *)
Definition send (socket : option WebSocket) (message : ServerMessage) : list Effect :=
  match socket with
  | Some s => [Send s message]
  | None => []
  end.

(** [getConnection(clientId)]: the first socket, in iteration order,
    whose stored record has that id. *)
Fixpoint getConnection (connections : Connections) (clientId : option string)
  : option WebSocket :=
  match connections with
  | [] => None
  | (socket, client) :: rest =>
      if decide (Some (Peer.id client) = clientId) then Some socket
      else getConnection rest clientId
  end.

(** [notifyClient(socket, client, other, remove)]. The [client] argument
    is only used for the debug line. *)
Definition notifyClient (socket : WebSocket) (client other : Peer.t)
    (remove : option bool) : list Effect :=
  send (Some socket) (PeerMessage (Peer.with_remove other remove)).

(** The first loop of the [identify] case. *)
Definition tellNewClient (connections : Connections) (socket : WebSocket)
    (client : Peer.t) : list Effect :=
  if negb (has connections socket)
  then flat_map (fun '(_, peer) => notifyClient socket client peer None) connections
  else [].

(** The second loop of the [identify] case. *)
Definition announce (connections : Connections) (client : Peer.t) : list Effect :=
  flat_map (fun '(psock, peer) =>
              if decide (Peer.id peer ≠ Peer.id client)
              then notifyClient psock peer client None
              else []) connections.

Definition handleMessage (msg : RtcMessage) (socket : WebSocket)
    (connections : Connections) : list Effect * Connections :=
  match msg with
  | IdentifyMessage client =>
      let notifications := tellNewClient connections socket client
                           ++ announce connections client in
      (notifications
         ++ [AwaitAll (length notifications); MapSet socket client],
       set connections socket client)
  | _ =>
      (send (getConnection connections (target msg)) (Rtc msg), connections)
  end.

(** The socket's [close] handler. *)
Definition onClose (socket : WebSocket) (connections : Connections)
  : list Effect * Connections :=
  match get connections socket with
  | Some client =>
      let connections' := delete connections socket in
      (MapDelete socket
         :: flat_map (fun '(sock, peer) => notifyClient sock peer client (Some true))
                     connections',
       connections')
  | None => ([], connections)
  end.

(** The [connection] handler, after the listeners are installed: the id
    comes from [crypto.randomUUID()], the version from the start time of
    the process. *)
Definition onConnection (version id : string) (socket : WebSocket) : list Effect :=
  send (Some socket) (ReadyMessage version id).

(** The messages a trace delivers to one socket, in order. *)
Fixpoint sentTo (socket : WebSocket) (trace : list Effect) : list ServerMessage :=
  match trace with
  | [] => []
  | Send s m :: rest =>
      if decide (s = socket) then m :: sentTo socket rest else sentTo socket rest
  | _ :: rest => sentTo socket rest
  end.

Definition isSend (e : Effect) : bool :=
  match e with Send _ _ => true | _ => false end.

(** A socket keys at most one entry. *)
Definition wf (connections : Connections) : Prop := NoDup (connections.*1).

End Server.


(** ** The browser-side client ([WebRTCClient]) *)

Module Client.

(** *** Browser objects *)

Inductive Error := mkError (message : string).

(** A media track is known by its [kind]. *)
Definition MediaStreamTrack := string.
Definition MediaStream := list MediaStreamTrack.

Inductive RTCDataChannelState := connecting | open | closing | closed_.

Record RTCDataChannel := { readyState : RTCDataChannelState }.

(** [RTCSessionDescriptionInit]. *)
Record SessionDescriptionInit := { sd_type : string; sd_sdp : option string }.

(** What the client reads from and assigns to its [RTCPeerConnection]:
    the remote description, and the [onicecandidate] handler, recorded by
    the peer id its closure has captured. *)
Record RTCPeerConnection := {
  remoteDescription : option Description.t;
  onicecandidate : option string
}.

Record PeerConnection := {
  peer : Peer.t;
  connection : RTCPeerConnection;
  channel : RTCDataChannel;
  iceCandidates : list RTCIceCandidateInit
}.

(** Event handlers registered through [on] are known by identity. *)
Definition Handler := nat.

Inductive RtcEvent :=
| peeradded (data : Peer.t)
| peerupdated (data : Peer.t)
| peerremoved (data : Peer.t)
| peerconnected (stream : MediaStream) (data : Peer.t)
| peerdisconnected (peerId : string)
| connected
| disconnected
| offer (data : Offer)
| error (e : Error)
| chat (data : Peer.t) (message : string).

Definition RtcEventName := string.

Definition eventName (event : RtcEvent) : RtcEventName :=
  match event with
  | peeradded _ => "peeradded"
  | peerupdated _ => "peerupdated"
  | peerremoved _ => "peerremoved"
  | peerconnected _ _ => "peerconnected"
  | peerdisconnected _ => "peerdisconnected"
  | connected => "connected"
  | disconnected => "disconnected"
  | offer _ => "offer"
  | error _ => "error"
  | chat _ _ => "chat"
  end.

(** The [console.warn] lines of the class. *)
Inductive Warning :=
| IgnoringIceCandidate (id : string)
| ErrorAddingIceCandidate (candidate : RTCIceCandidateInit) (e : Error)
| Caught (e : Error)
| ChannelNotReady (peerId : string).

(** Effects on the outside world, in program order. *)
Inductive Event :=
| ConsoleWarn (w : Warning)
| NewWebSocket (socket : WebSocket) (userid : string)
| SocketSend (socket : WebSocket) (message : RtcMessage)
| SocketClose (socket : WebSocket)
| Emit (event : RtcEvent) (handlers : list Handler)
| NewRTCPeerConnection
| CreateDataChannel
| AddTrack (track : MediaStreamTrack)
| CreateOffer
| CreateAnswer
| SetLocalDescription (description : SessionDescriptionInit)
| SetRemoteDescription (description : Description.t)
| AddIceCandidate (candidate : RTCIceCandidateInit)
| ChannelSend (message : ClientMessage)
| ChannelClose
| ConnectionClose
| TrackStop (track : MediaStreamTrack)
| LocationReload
| SetTimeout (timer : nat) (ms : nat)
| ClearTimeout (timer : option nat)
| UnhandledRejection (e : Error).

(** *** The state of the class

    The ten private fields of [WebRTCClient], and the two pieces of the
    browser its sockets and timers live in: the timeouts that are
    pending (handle and delay) and the next fresh handle. *)
Record WebRTCClient := {
  closed : bool;
  version : string;
  id : string;
  listeners : gmap RtcEventName (list Handler);
  name : string;
  peerConnection : option PeerConnection;
  peers : gmap string Peer.t;
  reconnectTimer : option nat;
  socket : option WebSocket;
  stream : option MediaStream;
  timers : list (nat * nat);
  nextHandle : nat
}.

Definition set_closed (v : bool) (c : WebRTCClient) : WebRTCClient :=
  {| closed := v; version := version c; id := id c; listeners := listeners c;
     name := name c; peerConnection := peerConnection c; peers := peers c;
     reconnectTimer := reconnectTimer c; socket := socket c; stream := stream c;
     timers := timers c; nextHandle := nextHandle c |}.

Definition set_version (v : string) (c : WebRTCClient) : WebRTCClient :=
  {| closed := closed c; version := v; id := id c; listeners := listeners c;
     name := name c; peerConnection := peerConnection c; peers := peers c;
     reconnectTimer := reconnectTimer c; socket := socket c; stream := stream c;
     timers := timers c; nextHandle := nextHandle c |}.

Definition set_id (v : string) (c : WebRTCClient) : WebRTCClient :=
  {| closed := closed c; version := version c; id := v; listeners := listeners c;
     name := name c; peerConnection := peerConnection c; peers := peers c;
     reconnectTimer := reconnectTimer c; socket := socket c; stream := stream c;
     timers := timers c; nextHandle := nextHandle c |}.

Definition set_listeners (v : gmap RtcEventName (list Handler)) (c : WebRTCClient)
  : WebRTCClient :=
  {| closed := closed c; version := version c; id := id c; listeners := v;
     name := name c; peerConnection := peerConnection c; peers := peers c;
     reconnectTimer := reconnectTimer c; socket := socket c; stream := stream c;
     timers := timers c; nextHandle := nextHandle c |}.

Definition set_name (v : string) (c : WebRTCClient) : WebRTCClient :=
  {| closed := closed c; version := version c; id := id c; listeners := listeners c;
     name := v; peerConnection := peerConnection c; peers := peers c;
     reconnectTimer := reconnectTimer c; socket := socket c; stream := stream c;
     timers := timers c; nextHandle := nextHandle c |}.

Definition set_peerConnection (v : option PeerConnection) (c : WebRTCClient)
  : WebRTCClient :=
  {| closed := closed c; version := version c; id := id c; listeners := listeners c;
     name := name c; peerConnection := v; peers := peers c;
     reconnectTimer := reconnectTimer c; socket := socket c; stream := stream c;
     timers := timers c; nextHandle := nextHandle c |}.

Definition set_peers (v : gmap string Peer.t) (c : WebRTCClient) : WebRTCClient :=
  {| closed := closed c; version := version c; id := id c; listeners := listeners c;
     name := name c; peerConnection := peerConnection c; peers := v;
     reconnectTimer := reconnectTimer c; socket := socket c; stream := stream c;
     timers := timers c; nextHandle := nextHandle c |}.

Definition set_reconnectTimer (v : option nat) (c : WebRTCClient) : WebRTCClient :=
  {| closed := closed c; version := version c; id := id c; listeners := listeners c;
     name := name c; peerConnection := peerConnection c; peers := peers c;
     reconnectTimer := v; socket := socket c; stream := stream c;
     timers := timers c; nextHandle := nextHandle c |}.

Definition set_socket (v : option WebSocket) (c : WebRTCClient) : WebRTCClient :=
  {| closed := closed c; version := version c; id := id c; listeners := listeners c;
     name := name c; peerConnection := peerConnection c; peers := peers c;
     reconnectTimer := reconnectTimer c; socket := v; stream := stream c;
     timers := timers c; nextHandle := nextHandle c |}.

Definition set_stream (v : option MediaStream) (c : WebRTCClient) : WebRTCClient :=
  {| closed := closed c; version := version c; id := id c; listeners := listeners c;
     name := name c; peerConnection := peerConnection c; peers := peers c;
     reconnectTimer := reconnectTimer c; socket := socket c; stream := v;
     timers := timers c; nextHandle := nextHandle c |}.

Definition set_timers (v : list (nat * nat)) (c : WebRTCClient) : WebRTCClient :=
  {| closed := closed c; version := version c; id := id c; listeners := listeners c;
     name := name c; peerConnection := peerConnection c; peers := peers c;
     reconnectTimer := reconnectTimer c; socket := socket c; stream := stream c;
     timers := v; nextHandle := nextHandle c |}.

Definition set_nextHandle (v : nat) (c : WebRTCClient) : WebRTCClient :=
  {| closed := closed c; version := version c; id := id c; listeners := listeners c;
     name := name c; peerConnection := peerConnection c; peers := peers c;
     reconnectTimer := reconnectTimer c; socket := socket c; stream := stream c;
     timers := timers c; nextHandle := v |}.

(** The state of [new WebRTCClient(name)] in a browser whose next fresh
    handle is [h]. *)
Definition constructor (name : option string) (h : nat) : WebRTCClient :=
  {| closed := false; version := EmptyString; id := EmptyString; listeners := ∅;
     name := default "Anonymous" name; peerConnection := None; peers := ∅;
     reconnectTimer := None; socket := None; stream := None;
     timers := []; nextHandle := h |}.

(** *** Computations: state, trace, exceptions

    A method maps the state of the client to its outcome (a value or a
    thrown [Error]), the state it leaves behind and the effects it had.
    What a method did before it threw stays done. *)
Inductive Result (A : Type) :=
| Return (a : A)
| Throw (e : Error).
Arguments Return {A} a.
Arguments Throw {A} e.

Definition M (A : Type) : Type := WebRTCClient → Result A * WebRTCClient * list Event.

Definition ret {A} (a : A) : M A := fun c => (Return a, c, []).

Definition throw {A} (message : string) : M A :=
  fun c => (Throw (mkError message), c, []).

Definition bind {A B} (m : M A) (k : A → M B) : M B :=
  fun c =>
    match m c with
    | (Return a, c1, t1) =>
        match k a c1 with
        | (r, c2, t2) => (r, c2, t1 ++ t2)
        end
    | (Throw e, c1, t1) => (Throw e, c1, t1)
    end.

Definition get : M WebRTCClient := fun c => (Return c, c, []).
Definition modify (f : WebRTCClient → WebRTCClient) : M unit :=
  fun c => (Return tt, f c, []).
Definition tell (events : list Event) : M unit := fun c => (Return tt, c, events).

(** [try { m } catch (error) { handler(error) }]. *)
Definition try_catch {A} (m : M A) (handler : Error → M A) : M A :=
  fun c =>
    match m c with
    | (Throw e, c1, t1) =>
        match handler e c1 with
        | (r, c2, t2) => (r, c2, t1 ++ t2)
        end
    | done => done
    end.

(** A call to an [async] method whose promise is neither awaited nor
    given a rejection handler: a throw inside it does not reach the
    caller. *)
Definition detached (m : M unit) : M unit :=
  fun c =>
    match m c with
    | (Throw e, c1, t1) => (Return tt, c1, t1 ++ [UnhandledRejection e])
    | done => done
    end.

Notation "'let!' x ':=' m 'in' k" := (bind m (fun x => k))
  (at level 10, x name, m at level 100, k at level 200).
Notation "m1 '>>' m2" := (bind m1 (fun _ => m2))
  (at level 100, m2 at level 200, right associativity).

(** JavaScript truthiness of an optional string. *)
Definition truthy (s : option string) : bool :=
  match s with
  | Some s => negb (bool_decide (s = EmptyString))
  | None => false
  end.

(** *** The transport capability

    Whether the asynchronous primitives of an [RTCPeerConnection]
    succeed, and with what, is up to the browser. *)
Module RTC.
Record t := {
  createOffer : RTCPeerConnection → Result SessionDescriptionInit;
  createAnswer : RTCPeerConnection → Result SessionDescriptionInit;
  setLocalDescription : RTCPeerConnection → SessionDescriptionInit → option Error;
  setRemoteDescription : RTCPeerConnection → Description.t → option Error;
  addIceCandidate : RTCPeerConnection → RTCIceCandidateInit → option Error
}.
End RTC.

(** [await] of a browser primitive: the call is recorded, the outcome
    is the browser's. *)
Definition await {A} (call : Event) (outcome : Result A) : M A :=
  fun c => (outcome, c, [call]).

Definition settled (outcome : option Error) : Result unit :=
  match outcome with
  | None => Return tt
  | Some e => Throw e
  end.

Definition set_connection (v : RTCPeerConnection) (pc : PeerConnection)
  : PeerConnection :=
  {| peer := peer pc; connection := v; channel := channel pc;
     iceCandidates := iceCandidates pc |}.

Definition set_iceCandidates (v : list RTCIceCandidateInit) (pc : PeerConnection)
  : PeerConnection :=
  {| peer := peer pc; connection := connection pc; channel := channel pc;
     iceCandidates := v |}.

Definition set_remoteDescription (v : option Description.t) (k : RTCPeerConnection)
  : RTCPeerConnection :=
  {| remoteDescription := v; onicecandidate := onicecandidate k |}.

Definition set_onicecandidate (v : option string) (k : RTCPeerConnection)
  : RTCPeerConnection :=
  {| remoteDescription := remoteDescription k; onicecandidate := v |}.

(** A write through the reference held in [#peerConnection]. *)
Definition updatePeerConnection (f : PeerConnection → PeerConnection) : M unit :=
  modify (fun c => set_peerConnection (f <$> peerConnection c) c).

(** The present state of the object a local variable [peerConnection]
    refers to: the one the active peer connection holds. *)
Definition deref (peerConnection_ : RTCPeerConnection) : M RTCPeerConnection :=
  let! c := get in
  ret (from_option connection peerConnection_ (peerConnection c)).

Section Methods.
Variable rtc : RTC.t.

(** [#emit(eventName, data)] calls the listeners registered for the
    event, if any. *)
Definition emit (event : RtcEvent) : M unit :=
  let! c := get in
  tell [Emit event (default [] (listeners c !! eventName event))].

(** [on(eventName, handler)]; a [Set] holds a handler once. *)
Definition on (eventName : RtcEventName) (handler : Handler) : M unit :=
  modify (fun c =>
    let handlers := default [] (listeners c !! eventName) in
    let handlers := if bool_decide (handler ∈ handlers) then handlers
                    else handlers ++ [handler] in
    set_listeners (<[eventName := handlers]> (listeners c)) c).

Definition getPeerConnection : M PeerConnection :=
  let! c := get in
  match peerConnection c with
  | None => throw "No peer connection"
  | Some pc => ret pc
  end.

Definition sendToSignalServer (message : RtcMessage) : M unit :=
  let! c := get in
  match socket c with
  | None => throw "Client is not connected"
  | Some s => tell [SocketSend s message]
  end.

Definition sendToPeer (message : ClientMessage) : M unit :=
  let! pc := getPeerConnection in
  match readyState (channel pc) with
  | open => tell [ChannelSend message]
  | _ => tell [ConsoleWarn (ChannelNotReady (Peer.id (peer pc)))]
  end.

Definition closeConnection : M unit :=
  let! c := get in
  match peerConnection c with
  | None => ret tt
  | Some pc =>
      let peerId := Peer.id (peer pc) in
      tell [ChannelClose] >>
      tell [ConnectionClose] >>
      modify (set_peerConnection None) >>
      emit (peerdisconnected peerId)
  end.

Definition disconnect : M unit :=
  sendToPeer DisconnectMessage >>
  closeConnection.

Definition sendChat (message : string) : M unit :=
  sendToPeer (ChatMessage message).

(** The setter of [name]. *)
Definition setName (value : string) : M unit :=
  let! c := get in
  let oldName := name c in
  modify (set_name value) >>
  if bool_decide (value ≠ oldName) && bool_decide (is_Some (socket c))
  then sendToSignalServer
         (IdentifyMessage {| Peer.name := value; Peer.id := id c; Peer.remove := None |})
  else ret tt.

Definition createPeerConnection (peerId : string) : M RTCPeerConnection :=
  let! c := get in
  match stream c with
  | None => throw "Stream must be open to create a peer connection"
  | Some stream_ =>
      match peerConnection c with
      | Some _ => throw "Client already has an active peer connection"
      | None =>
          match peers c !! peerId with
          | None => throw (String.append "Unknown peer " peerId)
          | Some peer_ =>
              let peerConnection_ :=
                {| remoteDescription := None; onicecandidate := None |} in
              tell [NewRTCPeerConnection] >>
              tell [CreateDataChannel] >>
              modify (set_peerConnection
                        (Some {| peer := peer_;
                                 connection := peerConnection_;
                                 channel := {| readyState := connecting |};
                                 iceCandidates := [] |})) >>
              tell (map AddTrack stream_) >>
              ret peerConnection_
          end
      end
  end.

(** The [try { await connection.addIceCandidate(candidate) } catch]
    block shared by [#addIceCandidate] and [#setRemoteDescription]. *)
Definition tryAddIceCandidate (connection_ : RTCPeerConnection)
    (candidate : RTCIceCandidateInit) : M unit :=
  try_catch
    (await (AddIceCandidate candidate)
           (settled (RTC.addIceCandidate rtc connection_ candidate)))
    (fun e => tell [ConsoleWarn (ErrorAddingIceCandidate candidate e)]).

(** The [while] loop of [#setRemoteDescription]: [queue] is what the
    candidate array holds when the iteration starts; [shift] takes
    its head off the array. Nothing is pushed onto the array while the
    loop runs: the remote description is set by then, and
    [#addIceCandidate] hands what arrives straight to the transport. *)
Fixpoint drainIceCandidates (connection_ : RTCPeerConnection)
    (queue : list RTCIceCandidateInit) : M unit :=
  match queue with
  | [] => ret tt
  | candidate :: rest =>
      updatePeerConnection (set_iceCandidates rest) >>
      tryAddIceCandidate connection_ candidate >>
      drainIceCandidates connection_ rest
  end.

Definition setRemoteDescription (answerOrOffer : Description.t) : M unit :=
  let! pc := getPeerConnection in
  let peerId := Peer.id (peer pc) in
  if bool_decide (peerId ≠ Description.source answerOrOffer)
  then throw "Answer or offer doesn't match pending peer connection"
  else
    await (SetRemoteDescription answerOrOffer)
          (settled (RTC.setRemoteDescription rtc (connection pc) answerOrOffer)) >>
    let connection_ := set_remoteDescription (Some answerOrOffer) (connection pc) in
    updatePeerConnection (set_connection connection_) >>
    drainIceCandidates connection_ (iceCandidates pc).

Definition addIceCandidate (candidate : IceCandidate.t) : M unit :=
  let! pc := getPeerConnection in
  if bool_decide (IceCandidate.id candidate ≠ Peer.id (peer pc))
  then tell [ConsoleWarn (IgnoringIceCandidate (IceCandidate.id candidate))]
  else
    match remoteDescription (connection pc) with
    | Some _ => tryAddIceCandidate (connection pc) (IceCandidate.candidate candidate)
    | None =>
        updatePeerConnection
          (fun pc => set_iceCandidates
                       (iceCandidates pc ++ [IceCandidate.candidate candidate]) pc)
    end.

(** The [onicecandidate] handler installed by [accept] and
    [#connectToPeer], with the [peerId] it has captured. *)
Definition onIceCandidate (peerId : string) (candidate : option RTCIceCandidateInit)
  : M unit :=
  match candidate with
  | Some candidate =>
      let! c := get in
      sendToSignalServer
        (IceCandidateMessage
           {| IceCandidate.id := id c; IceCandidate.target := peerId;
              IceCandidate.candidate := candidate |})
  | None => ret tt
  end.

Definition invite (peerId : string) : M unit :=
  let! peerConnection_ := createPeerConnection peerId in
  let! offer_ := await CreateOffer (RTC.createOffer rtc peerConnection_) in
  if negb (truthy (sd_sdp offer_))
  then throw "Unable to generate offer"
  else
    await (SetLocalDescription offer_)
          (settled (RTC.setLocalDescription rtc peerConnection_ offer_)) >>
    let! c := get in
    sendToSignalServer
      (OfferMessage {| Description.type := sd_type offer_;
                       Description.sdp := sd_sdp offer_;
                       Description.source := id c;
                       Description.target := peerId |}).

Definition accept (offer_ : Offer) : M unit :=
  let peerId := Description.source offer_ in
  let! peerConnection_ := createPeerConnection peerId in
  setRemoteDescription offer_ >>
  let! peerConnection_ := deref peerConnection_ in
  let! answer := await CreateAnswer (RTC.createAnswer rtc peerConnection_) in
  if negb (truthy (sd_sdp answer))
  then throw "Unable to generate answer"
  else
    await (SetLocalDescription answer)
          (settled (RTC.setLocalDescription rtc peerConnection_ answer)) >>
    let! c := get in
    sendToSignalServer
      (AcceptMessage {| Description.type := sd_type answer;
                        Description.sdp := sd_sdp answer;
                        Description.source := id c;
                        Description.target := Description.source offer_ |}) >>
    updatePeerConnection
      (fun pc => set_connection (set_onicecandidate (Some peerId) (connection pc)) pc).

Definition reject (offer_ : Offer) : M unit :=
  let! c := get in
  sendToSignalServer
    (RejectMessage {| Reject.source := id c;
                      Reject.target := Description.source offer_ |}).

Definition connectToPeer (answer : Answer) : M unit :=
  setRemoteDescription answer >>
  let! pc := getPeerConnection in
  let peerId := Peer.id (peer pc) in
  updatePeerConnection
    (fun pc => set_connection (set_onicecandidate (Some peerId) (connection pc)) pc).

Definition handleServerMessage (message : ServerMessage) : M unit :=
  try_catch
    match message with
    | PeerMessage data =>
        if bool_decide (Peer.remove data = Some true)
        then
          modify (fun c => set_peers (delete (Peer.id data) (peers c)) c) >>
          emit (peerremoved data)
        else
          let! c := get in
          let event := if bool_decide (is_Some (peers c !! Peer.id data))
                       then peerupdated else peeradded in
          modify (fun c => set_peers (<[Peer.id data := data]> (peers c)) c) >>
          emit (event data)
    | Rtc (OfferMessage data) => emit (offer data)
    | Rtc (AcceptMessage data) => detached (connectToPeer data)
    | Rtc (RejectMessage _) => closeConnection
    | Rtc (IceCandidateMessage data) => addIceCandidate data
    | ReadyMessage version_ id_ =>
        let! c := get in
        if truthy (Some (version c)) && bool_decide (version c ≠ version_)
        then tell [LocationReload]
        else
          (if negb (truthy (Some (version c)))
           then modify (set_version version_) else ret tt) >>
          modify (set_id id_) >>
          let! c := get in
          sendToSignalServer
            (IdentifyMessage {| Peer.id := id c; Peer.name := name c;
                                Peer.remove := None |})
    | Rtc (IdentifyMessage _) => ret tt
    end
    (fun e => tell [ConsoleWarn (Caught e)]).

(** The data channel's [onmessage] handler. *)
Definition handlePeerMessage (peer_ : Peer.t) (message : ClientMessage) : M unit :=
  match message with
  | ChatMessage data => emit (chat peer_ data)
  | DisconnectMessage => closeConnection
  end.

(** The [onconnectionstatechange] handler. *)
Definition onconnectionstatechange (connectionState : string) : M unit :=
  if bool_decide (connectionState = "disconnected")
     || bool_decide (connectionState = "failed")
  then closeConnection
  else ret tt.

(** *** Relay socket and reconnection *)

Definition clearTimeout (timer : option nat) : M unit :=
  modify (fun c =>
    set_timers (filter (fun t => Some t.1 ≠ timer) (timers c)) c) >>
  tell [ClearTimeout timer].

Definition setTimeout (ms : nat) : M nat :=
  let! c := get in
  let timer := nextHandle c in
  modify (fun c => set_nextHandle (S timer)
                     (set_timers (timers c ++ [(timer, ms)]) c)) >>
  tell [SetTimeout timer ms] >>
  ret timer.

Definition connectToSignalServer : M unit :=
  let! c := get in
  let socket_ := nextHandle c in
  tell [NewWebSocket socket_ (id c)] >>
  modify (fun c => set_nextHandle (S socket_) (set_socket (Some socket_) c)).

(** The callback handed to [setTimeout] by [#reconnectToSignalServer]. *)
Definition reconnectCallback : M unit :=
  let! c := get in
  match socket c with
  | Some _ => ret tt
  | None => connectToSignalServer
  end.

Definition reconnectToSignalServer : M unit :=
  let! c := get in
  clearTimeout (reconnectTimer c) >>
  let! timer := setTimeout 1000 in
  modify (set_reconnectTimer (Some timer)).

(** The [onopen], [onmessage] and [onclose] handlers of the socket. *)
Definition socket_onopen : M unit := emit connected.

Definition socket_onmessage (msg : ServerMessage) : M unit :=
  handleServerMessage msg.

Definition socket_onclose : M unit :=
  modify (set_socket None) >>
  emit disconnected >>
  let! c := get in
  if negb (closed c) && bool_decide (is_Some (stream c))
  then reconnectToSignalServer
  else ret tt.

Definition socketClose : M unit :=
  let! c := get in
  match socket c with
  | Some s => tell [SocketClose s]
  | None => ret tt
  end.

Definition disconnectFromSignalServer : M unit :=
  socketClose >>
  modify (set_socket None).

Definition closeStream : M unit :=
  disconnectFromSignalServer >>
  let! c := get in
  tell (map TrackStop (default [] (stream c))) >>
  modify (set_stream None).

Definition close : M unit :=
  let! c := get in
  clearTimeout (reconnectTimer c) >>
  modify (set_closed true) >>
  socketClose >>
  modify (set_listeners ∅) >>
  modify (set_peers ∅) >>
  closeStream.

(** What the browser may do to the client on its own: run a socket
    handler, or let a timeout elapse, which runs the callback if the
    timeout is still pending. *)
Inductive BrowserEvent :=
| SocketOpens
| SocketDelivers (msg : ServerMessage)
| SocketCloses
| TimeoutElapses (timer : nat).

Definition isPending (timer : nat) (c : WebRTCClient) : bool :=
  bool_decide (timer ∈ (timers c).*1).

Definition deliver (event : BrowserEvent) : M unit :=
  match event with
  | SocketOpens => socket_onopen
  | SocketDelivers msg => socket_onmessage msg
  | SocketCloses => socket_onclose
  | TimeoutElapses timer =>
      let! c := get in
      if isPending timer c
      then
        modify (fun c => set_timers (filter (fun t => t.1 ≠ timer) (timers c)) c) >>
        reconnectCallback
      else ret tt
  end.

Fixpoint run (events : list BrowserEvent) : M unit :=
  match events with
  | [] => ret tt
  | event :: rest => deliver event >> run rest
  end.

End Methods.

(** *** Notions used to state the properties *)

(** The transport calls, and the warnings, of draining [queue] into a
    connection: every candidate is handed over, in order; a refusal is
    logged and the next candidate follows. *)
Definition drained (rtc : RTC.t) (connection_ : RTCPeerConnection)
    (queue : list RTCIceCandidateInit) : list Event :=
  flat_map (fun candidate =>
              AddIceCandidate candidate ::
              match RTC.addIceCandidate rtc connection_ candidate with
              | Some e => [ConsoleWarn (ErrorAddingIceCandidate candidate e)]
              | None => []
              end) queue.

(** Inbound [icecandidate] frames, as browser events. *)
Definition candidatesArrive (frames : list IceCandidate.t) : list BrowserEvent :=
  map (fun data => SocketDelivers (Rtc (IceCandidateMessage data))) frames.

(** What the negotiation with a peer leaves alone: the fields the
    reconnection policy works with. A quiet effect neither opens a
    socket nor arms a timeout. *)
Definition keeps (c c' : WebRTCClient) : Prop :=
  closed c' = closed c ∧ socket c' = socket c ∧ stream c' = stream c
  ∧ reconnectTimer c' = reconnectTimer c ∧ timers c' = timers c
  ∧ nextHandle c' = nextHandle c.

Definition isQuiet (e : Event) : bool :=
  match e with
  | NewWebSocket _ _ | SetTimeout _ _ => false
  | _ => true
  end.

Definition signalling {A} (m : M A) : Prop :=
  ∀ c, keeps c (m c).1.2 ∧ Forall (fun e => isQuiet e = true) (m c).2.

(** Every pending timeout is the one [#reconnectTimer] refers to. *)
Definition timersOwned (c : WebRTCClient) : Prop :=
  ∀ timer, timer ∈ (timers c).*1 → reconnectTimer c = Some timer.


End Client.

(** ** Concrete parties and states *)

Module Examples.
Import Client.

Definition alice : Peer.t := Peer.mk "a1" "Alice" None.
Definition bob : Peer.t := Peer.mk "b1" "Bob" None.
Definition carol : Peer.t := Peer.mk "c1" "Carol" None.

Definition offer_to_bob : RtcMessage :=
  OfferMessage (Description.mk "offer" (Some "v=0") "a1" "b1").

(** A concrete browser: offers and answers are generated, descriptions
    are accepted, and the candidate ["bad"] is refused. *)
Definition rtc0 : RTC.t :=
  {| RTC.createOffer := fun _ => Return {| sd_type := "offer"; sd_sdp := Some "v=0 o" |};
     RTC.createAnswer := fun _ => Return {| sd_type := "answer"; sd_sdp := Some "v=0 a" |};
     RTC.setLocalDescription := fun _ _ => None;
     RTC.setRemoteDescription := fun _ _ => None;
     RTC.addIceCandidate := fun _ candidate =>
       if bool_decide (candidate = "bad") then Some (mkError "OperationError") else None |}.

(** Alice: identified as [a1], camera open, connected to the relay on
    socket 7, knowing Bob and Carol, with one listener for
    [peerdisconnected]; no peer connection. *)
Definition alice_idle : WebRTCClient :=
  {| closed := false; version := "1700000000000"; id := "a1";
     listeners := {[ "peerdisconnected" := [0] ]};
     name := "Alice"; peerConnection := None;
     peers := {[ "b1" := bob; "c1" := carol ]};
     reconnectTimer := None; socket := Some 7;
     stream := Some ["audio"; "video"];
     timers := []; nextHandle := 8 |}.

(** Alice after [invite("b1")], with the candidates [queue] waiting. *)
Definition session_with_bob (queue : list RTCIceCandidateInit) : PeerConnection :=
  {| peer := bob;
     connection := {| remoteDescription := None; onicecandidate := None |};
     channel := {| readyState := connecting |};
     iceCandidates := queue |}.

Definition alice_offering : WebRTCClient :=
  set_peerConnection (Some (session_with_bob [])) alice_idle.

(** Alice after the relay socket has closed under her: no socket, and
    the reconnect timeout 8 pending. *)
Definition alice_cut_off : WebRTCClient :=
  set_reconnectTimer (Some 8)
    (set_nextHandle 9 (set_timers [(8, 1000)] (set_socket None alice_idle))).

End Examples.

(** ** Further notions for the relay *)

Module Relay.
Import Server.

(** The sockets a trace writes to, in order. *)
Fixpoint recipients (trace : list Effect) : list WebSocket :=
  match trace with
  | [] => []
  | Send s _ :: rest => s :: recipients rest
  | _ :: rest => recipients rest
  end.

(** What the relay reacts to: a frame from a socket, or the close of a
    socket. *)
Inductive Input :=
| Frame (socket : WebSocket) (msg : RtcMessage)
| Closed (socket : WebSocket).

Definition step (input : Input) (connections : Connections)
  : list Effect * Connections :=
  match input with
  | Frame socket msg => handleMessage msg socket connections
  | Closed socket => onClose socket connections
  end.

(** The registry after a sequence of inputs, and everything sent on the
    way. *)
Fixpoint steps (inputs : list Input) (connections : Connections)
  : list Effect * Connections :=
  match inputs with
  | [] => ([], connections)
  | input :: rest =>
      let '(t1, c1) := step input connections in
      let '(t2, c2) := steps rest c1 in
      (t1 ++ t2, c2)
  end.

(** What a client knows of its peers after the frames it was sent, as
    the [peer] case of its frame handler files them. *)
Definition learn (known : gmap string Peer.t) (message : ServerMessage)
  : gmap string Peer.t :=
  match message with
  | PeerMessage data =>
      if bool_decide (Peer.remove data = Some true)
      then base.delete (Peer.id data) known
      else <[Peer.id data := data]> known
  | _ => known
  end.

Definition view (messages : list ServerMessage) : gmap string Peer.t :=
  foldl learn ∅ messages.

Definition socketOf (input : Input) : WebSocket :=
  match input with
  | Frame socket _ => socket
  | Closed socket => socket
  end.

(** Clients that behave: a connection always identifies with the id it
    was given, [idOf] of its socket. *)
Definition honest (idOf : WebSocket → string) (input : Input) : Prop :=
  match input with
  | Frame socket (IdentifyMessage client) => Peer.id client = idOf socket
  | _ => True
  end.

(** A socket that has closed is not heard of again. *)
Fixpoint orderly (inputs : list Input) : Prop :=
  match inputs with
  | [] => True
  | input :: rest =>
      match input with
      | Closed socket => socket ∉ map socketOf rest
      | Frame _ _ => True
      end ∧ orderly rest
  end.

(** The record of some other registered connection, as announced. *)
Definition otherEntry (connections : Connections) (socket : WebSocket)
    (key : string) (value : Peer.t) : Prop :=
  ∃ s p, (s, p) ∈ connections ∧ s ≠ socket
         ∧ Peer.id p = key ∧ value = Peer.with_remove p None.

(** An effect that is not the sending of a negotiation frame. *)
Definition ownWords (e : Effect) : Prop :=
  match e with
  | Send _ (Rtc _) => False
  | _ => True
  end.

(** The relay and the clients agree: the registry is well formed, every
    connection is registered under the id it was given, and what the
    frames sent to a registered connection have taught its client is
    exactly the other registered connections. *)
Definition consistent (idOf : WebSocket → string)
    (connections : Connections) (trace : list Effect) : Prop :=
  wf connections
  ∧ (∀ s p, (s, p) ∈ connections → Peer.id p = idOf s)
  ∧ (∀ s p, (s, p) ∈ connections →
       ∀ k v, view (sentTo s trace) !! k = Some v ↔ otherEntry connections s k v).

(** Nothing was sent yet to the sockets still to register. *)
Definition untouched (connections : Connections) (trace : list Effect)
    (inputs : list Input) : Prop :=
  ∀ s, s ∈ map socketOf inputs → get connections s = None → sentTo s trace = [].

End Relay.


(** ** Further notions for the client *)

Module Api.
Import Client.

(** [getPeer(peerId)] and [getConnectedPeer()]. *)
Definition getPeer (peerId : string) (c : WebRTCClient) : option Peer.t :=
  peers c !! peerId.

Definition getConnectedPeer : M Peer.t :=
  let! pc := getPeerConnection in
  ret (peer pc).

(** Everything that makes the client run: a call of one of its public
    methods, an event of the relay socket or of the reconnect timer, or
    an event of a peer connection it has created (a message on the data
    channel, a change of connection state, a gathered ICE candidate).
    The handlers of a peer connection are closures: they carry the peer
    they were created for. *)
Inductive Stimulus :=
| Invite (peerId : string)
| Accept (offer_ : Offer)
| RejectOffer (offer_ : Offer)
| Disconnect
| SendChat (message : string)
| SetName (value : string)
| On (eventName : RtcEventName) (handler : Handler)
| CloseStream
| Close
| Browser (event : BrowserEvent)
| ChannelMessage (peer_ : Peer.t) (message : ClientMessage)
| ConnectionStateChange (connectionState : string)
| IceCandidateGathered (peerId : string) (candidate : option RTCIceCandidateInit).

Definition react (rtc : RTC.t) (stimulus : Stimulus) : M unit :=
  match stimulus with
  | Invite peerId => invite rtc peerId
  | Accept offer_ => accept rtc offer_
  | RejectOffer offer_ => reject offer_
  | Disconnect => disconnect
  | SendChat message => sendChat message
  | SetName value => setName value
  | On eventName handler => on eventName handler
  | CloseStream => closeStream
  | Close => close
  | Browser event => deliver rtc event
  | ChannelMessage peer_ message => handlePeerMessage peer_ message
  | ConnectionStateChange connectionState => onconnectionstatechange connectionState
  | IceCandidateGathered peerId candidate => onIceCandidate peerId candidate
  end.

(** The client, and the effects so far, after a sequence of stimuli. An
    exception thrown by one of them goes to whoever made the call; the
    client carries on from the state the call left. *)
Fixpoint after (rtc : RTC.t) (stimuli : list Stimulus) (c : WebRTCClient)
  : WebRTCClient * list Event :=
  match stimuli with
  | [] => (c, [])
  | stimulus :: rest =>
      let '(_, c1, t1) := react rtc stimulus c in
      let '(c2, t2) := after rtc rest c1 in
      (c2, t1 ++ t2)
  end.

(** A computation keeps [I] and has only effects in [Q]. *)
Definition guarantees {A} (I : WebRTCClient → Prop) (Q : Event → Prop) (m : M A) : Prop :=
  ∀ c, I c → I (m c).1.2 ∧ Forall Q (m c).2.

(** The effects of negotiating with a peer, the call of listeners
    apart. *)
Definition isNegotiation (e : Event) : bool :=
  match e with
  | ConsoleWarn _ | SocketSend _ _ | NewRTCPeerConnection | CreateDataChannel
  | AddTrack _ | CreateOffer | CreateAnswer | SetLocalDescription _
  | SetRemoteDescription _ | AddIceCandidate _ | ChannelSend _ | ChannelClose
  | ConnectionClose | LocationReload | UnhandledRejection _ => true
  | _ => false
  end.

(** The stimuli that negotiate with a peer: the calls that invite,
    answer, chat and hang up, the frames a peer has sent through the
    relay, and the events of a peer connection. *)
Definition negotiates (stimulus : Stimulus) : bool :=
  match stimulus with
  | Invite _ | Accept _ | RejectOffer _ | Disconnect | SendChat _
  | ChannelMessage _ _ | ConnectionStateChange _ | IceCandidateGathered _ _
  | Browser (SocketDelivers (Rtc _)) => true
  | _ => false
  end.

(** Every peer the client knows is filed under its own id. *)
Definition peersKeyed (c : WebRTCClient) : Prop :=
  ∀ key p, peers c !! key = Some p → Peer.id p = key.

(** At most one timeout is pending, and it is the one [#reconnectTimer]
    refers to. *)
Definition oneTimer (c : WebRTCClient) : Prop :=
  timersOwned c ∧ (length (timers c) ≤ 1)%nat.

(** No condition on effects. *)
Definition anyEvent (e : Event) : Prop := True.

End Api.


(** ** More concrete states *)

Module MoreExamples.
Import Client Examples.


(** Ids for the relay's sockets, one per socket: socket [n] gets [n]
    letters. *)
Fixpoint tally (n : nat) : string :=
  match n with
  | O => EmptyString
  | S n => String.append "i" (tally n)
  end.

(** The frames a client is sent, as events of its socket. *)
Definition delivered (messages : list ServerMessage) : list Api.Stimulus :=
  map (fun message => Api.Browser (SocketDelivers message)) messages.

(** The relay with Alice on its socket 1 and Bob on its socket 2. *)
Definition alice_and_bob : Server.Connections := [(1, alice); (2, bob)].

End MoreExamples.
(** ** Properties of the signal server *)

Module ServerFacts.
Import Server.

Lemma sentTo_app socket (t1 t2 : list Effect) :
  sentTo socket (t1 ++ t2) = sentTo socket t1 ++ sentTo socket t2.
Proof.
  induction t1 as [|e t1 IH]; [done|].
  destruct e; simpl; try done.
  case_decide; simpl; by rewrite IH.
Qed.

Lemma get_None_notin (connections : Connections) socket :
  get connections socket = None ↔ socket ∉ connections.*1.
Proof.
  induction connections as [|[s p] rest IH]; simpl.
  - split; [intros _; apply not_elem_of_nil | done].
  - case_decide as Hs.
    + subst. split; [done|]. intros []. apply elem_of_cons. by left.
    + rewrite IH, not_elem_of_cons. intuition congruence.
Qed.

Lemma get_Some_elem (connections : Connections) socket client :
  get connections socket = Some client → (socket, client) ∈ connections.
Proof.
  induction connections as [|[s p] rest IH]; simpl; [done|].
  case_decide as Hs.
  - intros [= ->]. subst. apply elem_of_cons. by left.
  - intros H. apply elem_of_cons. right. by apply IH.
Qed.

Lemma elem_get_Some (connections : Connections) socket client :
  wf connections → (socket, client) ∈ connections →
  get connections socket = Some client.
Proof.
  unfold wf. induction connections as [|[s p] rest IH]; simpl.
  - intros _ H. by apply elem_of_nil in H.
  - intros Hnd Hin. apply NoDup_cons in Hnd as [Hs Hnd].
    apply elem_of_cons in Hin as [[= -> ->]|Hin].
    + by rewrite decide_True.
    + case_decide as Heq; [|by apply IH].
      subst. exfalso. apply Hs.
      apply list_elem_of_fmap. by exists (socket, client).
Qed.

Lemma set_fresh (connections : Connections) socket client :
  get connections socket = None →
  set connections socket client = connections ++ [(socket, client)].
Proof.
  induction connections as [|[s p] rest IH]; simpl; [done|].
  case_decide; [done|]. intros Hrest. by rewrite IH.
Qed.

Lemma delete_keys (connections : Connections) socket s :
  s ∈ (delete connections socket).*1 ↔ s ≠ socket ∧ s ∈ connections.*1.
Proof.
  induction connections as [|[s' p] rest IH]; simpl.
  - split; [intros H; by apply elem_of_nil in H | intros [_ H]; by apply elem_of_nil in H].
  - case_decide as Heq; simpl; rewrite ?elem_of_cons, IH; naive_solver.
Qed.

Lemma delete_elem (connections : Connections) socket s p :
  (s, p) ∈ delete connections socket ↔ s ≠ socket ∧ (s, p) ∈ connections.
Proof.
  induction connections as [|[s' p'] rest IH]; simpl.
  - split; [intros H; by apply elem_of_nil in H | intros [_ H]; by apply elem_of_nil in H].
  - case_decide as Heq; simpl; rewrite ?elem_of_cons, IH; naive_solver.
Qed.

Lemma delete_wf (connections : Connections) socket :
  wf connections → wf (delete connections socket).
Proof.
  unfold wf. induction connections as [|[s p] rest IH]; simpl; [done|].
  intros Hnd. apply NoDup_cons in Hnd as [Hs Hnd].
  case_decide; simpl; [by apply IH|].
  apply NoDup_cons. split; [|by apply IH].
  rewrite delete_keys. naive_solver.
Qed.

Lemma set_wf (connections : Connections) socket client :
  wf connections → wf (set connections socket client).
Proof.
  unfold wf. induction connections as [|[s p] rest IH]; simpl.
  - intros _. apply NoDup_singleton.
  - intros Hnd. apply NoDup_cons in Hnd as [Hs Hnd].
    case_decide; simpl; [by apply NoDup_cons|].
    apply NoDup_cons. split; [|by apply IH].
    clear IH Hnd. induction rest as [|[s' p'] rest IH]; simpl.
    + rewrite list_elem_of_singleton. done.
    + simpl in Hs. apply not_elem_of_cons in Hs as [? ?].
      case_decide; simpl; rewrite not_elem_of_cons; naive_solver.
Qed.

(** One message per entry, all to the same socket. *)
Lemma sentTo_tell socket client (connections : Connections) :
  sentTo socket
    (flat_map (fun '(_, peer) => notifyClient socket client peer None) connections)
  = map (fun e => PeerMessage (Peer.with_remove e.2 None)) connections.
Proof.
  induction connections as [|[s p] rest IH]; simpl; [done|].
  rewrite decide_True by done. by rewrite IH.
Qed.

Lemma sentTo_tell_other socket s client (connections : Connections) r :
  s ≠ socket →
  sentTo s
    (flat_map (fun '(_, peer) => notifyClient socket client peer r) connections) = [].
Proof.
  intros Hne. induction connections as [|[s' p] rest IH]; simpl; [done|].
  by rewrite decide_False.
Qed.

(** A broadcast over the registry reaches a socket that keys no entry
    not at all, and a socket that keys an entry once, if the entry
    passes the test. *)
Lemma sentTo_broadcast_absent (keep : Peer.t → bool) (other : Peer.t) (r : option bool) socket
    (connections : Connections) :
  socket ∉ connections.*1 →
  sentTo socket
    (flat_map (fun '(psock, peer) =>
                 if keep peer then notifyClient psock peer other r else [])
              connections) = [].
Proof.
  induction connections as [|[s p] rest IH]; simpl; [done|].
  intros [Hs Hrest]%not_elem_of_cons.
  rewrite sentTo_app, IH by done.
  destruct (keep p); simpl; [|done]. by rewrite decide_False.
Qed.

Lemma sentTo_broadcast_present (keep : Peer.t → bool) (other : Peer.t) (r : option bool) socket entry
    (connections : Connections) :
  wf connections → (socket, entry) ∈ connections →
  sentTo socket
    (flat_map (fun '(psock, peer) =>
                 if keep peer then notifyClient psock peer other r else [])
              connections)
  = if keep entry then [PeerMessage (Peer.with_remove other r)] else [].
Proof.
  unfold wf. induction connections as [|[s p] rest IH]; simpl.
  - intros _ H. by apply elem_of_nil in H.
  - intros Hnd Hin. apply NoDup_cons in Hnd as [Hs Hnd].
    rewrite sentTo_app.
    apply elem_of_cons in Hin as [[= -> ->]|Hin].
    + rewrite sentTo_broadcast_absent by done.
      destruct (keep p); simpl; [|done]. by rewrite decide_True.
    + rewrite IH by done.
      assert (s ≠ socket) as Hne.
      { intros ->. apply Hs. apply list_elem_of_fmap. by exists (socket, entry). }
      destruct (keep p); simpl; [|done]. by rewrite decide_False.
Qed.

Lemma announce_as_broadcast connections client :
  announce connections client =
  flat_map (fun '(psock, peer) =>
              if bool_decide (Peer.id peer ≠ Peer.id client)
              then notifyClient psock peer client None else [])
           connections.
Proof.
  unfold announce. induction connections as [|[s p] rest IH]; [done|].
  cbn [flat_map]. rewrite IH. f_equal.
  case_bool_decide; by case_decide.
Qed.

Lemma isSend_flat_map {A} (f : A → list Effect) (l : list A) :
  (∀ a, Forall (fun e => isSend e = true) (f a)) →
  Forall (fun e => isSend e = true) (flat_map f l).
Proof.
  intros Hf. induction l as [|a l IH]; simpl; [constructor|].
  apply Forall_app. split; [apply Hf | apply IH].
Qed.

Lemma isSend_notifications connections socket client :
  Forall (fun e => isSend e = true)
         (tellNewClient connections socket client ++ announce connections client).
Proof.
  apply Forall_app. split.
  - unfold tellNewClient. destruct (negb _); [|constructor].
    apply isSend_flat_map. intros [? ?]. by repeat constructor.
  - apply isSend_flat_map. intros [? ?]. case_decide; by repeat constructor.
Qed.

End ServerFacts.

(** ** The relay: registration, routing, unregistration *)

Module ServerSpec.
Import Server ServerFacts Examples.

(** C2. An [identify] from a connection that is not yet in the registry:
    the newcomer is sent one [peer] announcement, without [remove], per
    registered entry, in registration order and nothing else; every
    registered connection is sent the new record once if its stored id
    differs from the new id and nothing otherwise; no other socket is
    written to; and in the trace all these sends come first, then the
    join on them, then the store of the record, which appends the
    connection to the registry. *)
Theorem identify_from_new_connection
    (connections : Connections) (socket : WebSocket) (client : Peer.t) :
  wf connections →
  get connections socket = None →
  let trace := (handleMessage (IdentifyMessage client) socket connections).1 in
  let connections' := (handleMessage (IdentifyMessage client) socket connections).2 in
  sentTo socket trace
    = map (fun e => PeerMessage (Peer.with_remove e.2 None)) connections
  ∧ (∀ psock peer, (psock, peer) ∈ connections →
       sentTo psock trace
       = if decide (Peer.id peer ≠ Peer.id client)
         then [PeerMessage (Peer.with_remove client None)] else [])
  ∧ (∀ s, s ≠ socket → get connections s = None → sentTo s trace = [])
  ∧ (∃ sends, Forall (fun e => isSend e = true) sends
              ∧ trace = sends ++ [AwaitAll (length sends); MapSet socket client])
  ∧ connections' = connections ++ [(socket, client)]
  ∧ wf connections'.
Proof.
  intros Hwf Hnew trace connections'. subst trace connections'.
  assert (socket ∉ connections.*1) as Hnotin by by apply get_None_notin.
  cbn [handleMessage fst snd].
  assert (tellNewClient connections socket client
          = flat_map (fun '(_, peer) => notifyClient socket client peer None)
                     connections) as Htell.
  { unfold tellNewClient, has. by rewrite Hnew. }
  rewrite Htell, announce_as_broadcast.
  repeat split.
  - rewrite !sentTo_app, sentTo_tell, sentTo_broadcast_absent by done.
    simpl. by rewrite !app_nil_r.
  - intros psock peer Hin.
    assert (psock ≠ socket) as Hne.
    { intros ->. apply Hnotin. apply list_elem_of_fmap. by exists (socket, peer). }
    rewrite !sentTo_app, sentTo_tell_other by done.
    rewrite (sentTo_broadcast_present _ _ _ _ peer) by done.
    simpl. rewrite !app_nil_r. case_bool_decide; by case_decide.
  - intros s Hne Hs.
    rewrite !sentTo_app, sentTo_tell_other by done.
    rewrite sentTo_broadcast_absent by by apply get_None_notin.
    done.
  - eexists. split; [|reflexivity].
    rewrite <- Htell, <- announce_as_broadcast. apply isSend_notifications.
  - by apply set_fresh.
  - by apply set_wf.
Qed.

Lemma identify_from_new_connection_witness :
  sentTo 3 (handleMessage (IdentifyMessage carol) 3 [(1, alice); (2, bob)]).1
  = [PeerMessage alice; PeerMessage bob].
Proof.
  exact (proj1 (identify_from_new_connection [(1, alice); (2, bob)] 3 carol
                  ltac:(unfold wf; simpl; repeat constructor; set_solver)
                  eq_refl)).
Defined.

(** C6. Routing a message that is not an [identify], with target [t]:
    when some entry has id [t] the message goes, unchanged and once, to
    the socket of the first such entry, and to nobody else; when no
    entry has id [t] nothing is sent at all. The registry is left as it
    was in both cases. *)
Theorem route_by_target
    (msg : RtcMessage) (sender : WebSocket) (connections : Connections) (t : string) :
  target msg = Some t →
  (∀ before socket entry after,
      connections = before ++ (socket, entry) :: after →
      Forall (fun e => Peer.id e.2 ≠ t) before →
      Peer.id entry = t →
      handleMessage msg sender connections = ([Send socket (Rtc msg)], connections))
  ∧ ((∃ e, e ∈ connections ∧ Peer.id e.2 = t) →
     ∃ socket entry, (socket, entry) ∈ connections ∧ Peer.id entry = t
       ∧ handleMessage msg sender connections = ([Send socket (Rtc msg)], connections))
  ∧ (Forall (fun e => Peer.id e.2 ≠ t) connections →
     handleMessage msg sender connections = ([], connections)).
Proof.
  intros Ht.
  assert (handleMessage msg sender connections
          = (send (getConnection connections (Some t)) (Rtc msg), connections)) as ->.
  { destruct msg; simpl in *; try done; by simplify_eq. }
  assert (∀ before socket entry after,
             Forall (fun e => Peer.id e.2 ≠ t) before → Peer.id entry = t →
             getConnection (before ++ (socket, entry) :: after) (Some t) = Some socket)
    as Hfirst.
  { intros before socket entry after Hbefore Hid.
    induction Hbefore as [|[s p] before Hp _ IH]; simpl.
    - by rewrite decide_True by by f_equal.
    - rewrite decide_False; [done|]. simpl in Hp. congruence. }
  repeat split.
  - intros before socket entry after -> Hbefore Hid.
    by rewrite Hfirst.
  - intros (e & Hin & Hid).
    induction connections as [|[s p] rest IH]; [by apply elem_of_nil in Hin|].
    destruct (decide (Peer.id p = t)) as [Hp|Hp].
    + exists s, p. split; [apply elem_of_cons; by left|]. split; [done|].
      by rewrite (Hfirst [] s p rest (Forall_nil_2 _) Hp : getConnection ((s, p) :: rest) _ = _).
    + apply elem_of_cons in Hin as [->|Hin]; [done|].
      destruct (IH Hin) as (socket & entry & Hin' & Hid' & Heq).
      exists socket, entry. split; [apply elem_of_cons; by right|]. split; [done|].
      simpl. rewrite decide_False by congruence.
      injection Heq as Heq. by rewrite Heq.
  - intros Hnone.
    assert (getConnection connections (Some t) = None) as ->; [|done].
    induction Hnone as [|[s p] rest Hp _ IH]; simpl; [done|].
    rewrite decide_False; [done|]. simpl in Hp. congruence.
Qed.

Lemma route_by_target_witness :
  handleMessage offer_to_bob 1 [(1, alice); (2, bob)]
  = ([Send 2 (Rtc offer_to_bob)], [(1, alice); (2, bob)]).
Proof.
  apply (proj1 (route_by_target offer_to_bob 1 [(1, alice); (2, bob)] "b1" eq_refl)
           [(1, alice)] 2 bob []); [reflexivity | | reflexivity].
  repeat constructor. simpl. discriminate.
Defined.

(** C7. The [close] handler. A registered connection is removed from
    the registry and each remaining connection is sent one [peer]
    message carrying the removed record with [remove: true]; the sends
    follow the removal and no other socket is written to. A connection
    that was never registered changes nothing and sends nothing. *)
Theorem close_unregisters_and_broadcasts
    (socket : WebSocket) (connections : Connections) :
  wf connections →
  (∀ client, get connections socket = Some client →
     let trace := (onClose socket connections).1 in
     let connections' := (onClose socket connections).2 in
     connections' = delete connections socket
     ∧ get connections' socket = None
     ∧ (∀ sock peer, (sock, peer) ∈ connections →
          sock ≠ socket → (sock, peer) ∈ connections')
     ∧ (∀ sock peer, (sock, peer) ∈ connections' →
          sentTo sock trace = [PeerMessage (Peer.with_remove client (Some true))])
     ∧ (∀ sock, get connections' sock = None → sentTo sock trace = [])
     ∧ (∃ sends, Forall (fun e => isSend e = true) sends
                 ∧ trace = MapDelete socket :: sends)
     ∧ wf connections')
  ∧ (get connections socket = None →
     onClose socket connections = ([], connections)).
Proof.
  intros Hwf. split.
  - intros client Hget trace connections'. subst trace connections'.
    unfold onClose. rewrite Hget. cbn [fst snd].
    pose proof (delete_wf connections socket Hwf) as Hwf'.
    repeat split; try done.
    + apply get_None_notin. rewrite delete_keys. tauto.
    + intros sock peer Hin Hne. by apply delete_elem.
    + intros sock peer Hin. cbn [sentTo].
      exact (sentTo_broadcast_present (fun _ => true) client (Some true)
               sock peer _ Hwf' Hin).
    + intros sock Hnone. cbn [sentTo].
      apply (sentTo_broadcast_absent (fun _ => true) client (Some true)).
      by apply get_None_notin.
    + eexists. split; [|reflexivity].
      apply isSend_flat_map. intros [? ?]. by repeat constructor.
  - intros Hget. unfold onClose. by rewrite Hget.
Qed.

Lemma close_unregisters_and_broadcasts_witness :
  onClose 2 [(1, alice); (2, bob); (3, carol)]
  = ([MapDelete 2;
      Send 1 (PeerMessage (Peer.mk "b1" "Bob" (Some true)));
      Send 3 (PeerMessage (Peer.mk "b1" "Bob" (Some true)))],
     [(1, alice); (3, carol)])
  ∧ sentTo 3 (onClose 2 [(1, alice); (2, bob); (3, carol)]).1
    = [PeerMessage (Peer.with_remove bob (Some true))].
Proof.
  split; [reflexivity|].
  refine (proj1 (proj2 (proj2 (proj2 (proj1
    (close_unregisters_and_broadcasts 2 [(1, alice); (2, bob); (3, carol)] _)
    bob eq_refl)))) 3 carol _).
  - unfold wf; simpl; repeat constructor; set_solver.
  - simpl. set_solver.
Defined.

End ServerSpec.

(** ** Properties of the client *)

Module ClientFacts.
Import Client.

(** Writing a field twice keeps the last write; writing back what a
    field holds changes nothing. *)
Lemma set_peerConnection_id (c : WebRTCClient) :
  set_peerConnection (peerConnection c) c = c.
Proof. by destruct c. Qed.

Lemma set_iceCandidates_id (pc : PeerConnection) :
  set_iceCandidates (iceCandidates pc) pc = pc.
Proof. by destruct pc. Qed.

Lemma set_peerConnection_same (c : WebRTCClient) (pc : PeerConnection) :
  peerConnection c = Some pc → set_peerConnection (Some pc) c = c.
Proof. intros <-. apply set_peerConnection_id. Qed.

(** *** The candidate queue *)

Lemma tryAddIceCandidate_spec (rtc : RTC.t) connection_ candidate (c : WebRTCClient) :
  tryAddIceCandidate rtc connection_ candidate c
  = (Return tt, c, drained rtc connection_ [candidate]).
Proof.
  unfold tryAddIceCandidate, try_catch, await, settled, drained. cbn.
  by destruct (RTC.addIceCandidate rtc connection_ candidate).
Qed.

Lemma drainIceCandidates_spec (rtc : RTC.t) connection_
    (queue : list RTCIceCandidateInit) :
  ∀ (c : WebRTCClient) (pc : PeerConnection),
    peerConnection c = Some pc →
    iceCandidates pc = queue →
    drainIceCandidates rtc connection_ queue c
    = (Return tt,
       set_peerConnection (Some (set_iceCandidates [] pc)) c,
       drained rtc connection_ queue).
Proof.
  induction queue as [|candidate rest IH]; intros c pc Hpc Hqueue.
  - cbn. unfold ret. repeat f_equal.
    destruct c, pc; cbn in *. by subst.
  - cbn [drainIceCandidates]. unfold bind at 1.
    unfold updatePeerConnection, modify. rewrite Hpc. cbn [fmap option_fmap option_map].
    unfold bind at 1. rewrite tryAddIceCandidate_spec.
    rewrite (IH _ (set_iceCandidates rest pc)) by done.
    unfold drained. cbn [flat_map]. rewrite app_nil_r. reflexivity.
Qed.

Lemma icecandidate_from_stranger (rtc : RTC.t) (c : WebRTCClient)
    (pc : PeerConnection) (data : IceCandidate.t) :
  peerConnection c = Some pc →
  IceCandidate.id data ≠ Peer.id (peer pc) →
  handleServerMessage rtc (Rtc (IceCandidateMessage data)) c
  = (Return tt, c, [ConsoleWarn (IgnoringIceCandidate (IceCandidate.id data))]).
Proof.
  intros Hpc Hid.
  unfold handleServerMessage, try_catch, addIceCandidate, getPeerConnection, bind, get.
  rewrite Hpc. cbn. by rewrite bool_decide_true.
Qed.

Lemma icecandidate_queued (rtc : RTC.t) (c : WebRTCClient)
    (pc : PeerConnection) (data : IceCandidate.t) :
  peerConnection c = Some pc →
  IceCandidate.id data = Peer.id (peer pc) →
  remoteDescription (connection pc) = None →
  handleServerMessage rtc (Rtc (IceCandidateMessage data)) c
  = (Return tt,
     set_peerConnection
       (Some (set_iceCandidates
                (iceCandidates pc ++ [IceCandidate.candidate data]) pc)) c,
     []).
Proof.
  intros Hpc Hid Hremote.
  unfold handleServerMessage, try_catch, addIceCandidate, getPeerConnection, bind, get.
  rewrite Hpc. cbn. rewrite bool_decide_false by (intros []; done).
  rewrite Hremote. unfold updatePeerConnection, modify. by rewrite Hpc.
Qed.

Lemma icecandidate_applied (rtc : RTC.t) (c : WebRTCClient)
    (pc : PeerConnection) (data : IceCandidate.t) (d : Description.t) :
  peerConnection c = Some pc →
  IceCandidate.id data = Peer.id (peer pc) →
  remoteDescription (connection pc) = Some d →
  handleServerMessage rtc (Rtc (IceCandidateMessage data)) c
  = (Return tt, c, drained rtc (connection pc) [IceCandidate.candidate data]).
Proof.
  intros Hpc Hid Hremote.
  unfold handleServerMessage, try_catch, addIceCandidate, getPeerConnection, bind, get.
  rewrite Hpc. cbn. rewrite bool_decide_false by (intros []; done).
  rewrite Hremote, tryAddIceCandidate_spec. reflexivity.
Qed.

Lemma candidatesArrive_spec (rtc : RTC.t) (frames : list IceCandidate.t) :
  ∀ (c : WebRTCClient) (pc : PeerConnection),
    peerConnection c = Some pc →
    remoteDescription (connection pc) = None →
    run rtc (candidatesArrive frames) c
    = (Return tt,
       set_peerConnection
         (Some (set_iceCandidates
                  (iceCandidates pc
                     ++ map IceCandidate.candidate
                          (filter (fun data => IceCandidate.id data = Peer.id (peer pc))
                                  frames)) pc)) c,
       map (fun data => ConsoleWarn (IgnoringIceCandidate (IceCandidate.id data)))
           (filter (fun data => IceCandidate.id data ≠ Peer.id (peer pc)) frames)).
Proof.
  induction frames as [|data rest IH]; intros c pc Hpc Hremote.
  - cbn. unfold ret. rewrite app_nil_r, set_iceCandidates_id.
    by rewrite set_peerConnection_same.
  - cbn [candidatesArrive map run deliver socket_onmessage]. unfold bind at 1.
    destruct (decide (IceCandidate.id data = Peer.id (peer pc))) as [Hid|Hid].
    + rewrite (icecandidate_queued rtc c pc) by done.
      fold (candidatesArrive rest).
      rewrite (IH _ (set_iceCandidates
                       (iceCandidates pc ++ [IceCandidate.candidate data]) pc))
        by done.
      cbn [peer set_iceCandidates iceCandidates].
      rewrite filter_cons_True by done.
      rewrite filter_cons_False by (intros []; done).
      cbn. by rewrite <- app_assoc.
    + rewrite (icecandidate_from_stranger rtc c pc) by done.
      fold (candidatesArrive rest).
      rewrite (IH c pc) by done.
      rewrite filter_cons_False by done.
      by rewrite filter_cons_True by done.
Qed.

(** *** What the signalling methods leave alone

    The methods that negotiate with a peer never touch the fields the
    reconnection policy works with, and never open a socket or arm a
    timeout. *)

Lemma keeps_refl c : keeps c c.
Proof. by repeat split. Qed.

Lemma keeps_trans c1 c2 c3 : keeps c1 c2 → keeps c2 c3 → keeps c1 c3.
Proof. unfold keeps. intuition congruence. Qed.

Lemma signalling_ret {A} (a : A) : signalling (ret a).
Proof. intros c. split; [apply keeps_refl | constructor]. Qed.

Lemma signalling_throw {A} message : signalling (@throw A message).
Proof. intros c. split; [apply keeps_refl | constructor]. Qed.

Lemma signalling_get : signalling get.
Proof. intros c. split; [apply keeps_refl | constructor]. Qed.

Lemma signalling_tell events :
  Forall (fun e => isQuiet e = true) events → signalling (tell events).
Proof. intros Hq c. split; [apply keeps_refl | done]. Qed.

Lemma signalling_await {A} call (outcome : Result A) :
  isQuiet call = true → signalling (await call outcome).
Proof. intros Hq c. split; [apply keeps_refl | by repeat constructor]. Qed.

Lemma signalling_modify f : (∀ c, keeps c (f c)) → signalling (modify f).
Proof. intros Hf c. split; [apply Hf | constructor]. Qed.

Lemma signalling_bind {A B} (m : M A) (k : A → M B) :
  signalling m → (∀ a, signalling (k a)) → signalling (bind m k).
Proof.
  intros Hm Hk c. unfold bind.
  destruct (Hm c) as [Hkeep Hquiet].
  destruct (m c) as [[[a|e] c1] t1]; [|done].
  destruct (Hk a c1) as [Hkeep' Hquiet'].
  destruct (k a c1) as [[r c2] t2]. cbn in *. split.
  - by apply (keeps_trans c c1 c2).
  - by apply Forall_app.
Qed.

Lemma signalling_try_catch {A} (m : M A) (handler : Error → M A) :
  signalling m → (∀ e, signalling (handler e)) → signalling (try_catch m handler).
Proof.
  intros Hm Hh c. unfold try_catch.
  destruct (Hm c) as [Hkeep Hquiet].
  destruct (m c) as [[[a|e] c1] t1]; [done|].
  destruct (Hh e c1) as [Hkeep' Hquiet'].
  destruct (handler e c1) as [[r c2] t2]. cbn in *. split.
  - by apply (keeps_trans c c1 c2).
  - by apply Forall_app.
Qed.

Lemma signalling_detached (m : M unit) : signalling m → signalling (detached m).
Proof.
  intros Hm c. unfold detached.
  destruct (Hm c) as [Hkeep Hquiet].
  destruct (m c) as [[[a|e] c1] t1]; [done|]. cbn in *. split; [done|].
  apply Forall_app. split; [done|]. by repeat constructor.
Qed.

Ltac signalling_step :=
  first
    [ apply signalling_ret
    | apply signalling_throw
    | apply signalling_get
    | apply signalling_tell; by repeat constructor
    | apply signalling_await; reflexivity
    | apply signalling_modify; intros ?; by repeat split
    | apply signalling_bind; [|intros ?]
    | apply signalling_try_catch; [|intros ?]
    | apply signalling_detached
    | progress cbv beta zeta
    | match goal with
      | |- signalling (match ?x with _ => _ end) => destruct x
      end ].

Lemma signalling_emit event : signalling (emit event).
Proof. unfold emit. repeat signalling_step. Qed.

Lemma signalling_getPeerConnection : signalling getPeerConnection.
Proof. unfold getPeerConnection. repeat signalling_step. Qed.

Lemma signalling_sendToSignalServer message : signalling (sendToSignalServer message).
Proof. unfold sendToSignalServer. repeat signalling_step. Qed.

Lemma signalling_updatePeerConnection f : signalling (updatePeerConnection f).
Proof. unfold updatePeerConnection. repeat signalling_step. Qed.

Lemma signalling_closeConnection : signalling closeConnection.
Proof.
  unfold closeConnection.
  repeat first
    [ apply signalling_emit
    | signalling_step ].
Qed.

Lemma signalling_tryAddIceCandidate rtc connection_ candidate :
  signalling (tryAddIceCandidate rtc connection_ candidate).
Proof. unfold tryAddIceCandidate. repeat signalling_step. Qed.

Lemma signalling_drainIceCandidates rtc connection_ queue :
  signalling (drainIceCandidates rtc connection_ queue).
Proof.
  induction queue as [|candidate rest IH]; cbn [drainIceCandidates].
  - apply signalling_ret.
  - repeat first
    [ apply signalling_updatePeerConnection
    | apply signalling_tryAddIceCandidate
    | apply IH
    | signalling_step ].
Qed.

Lemma signalling_setRemoteDescription rtc answerOrOffer :
  signalling (setRemoteDescription rtc answerOrOffer).
Proof.
  unfold setRemoteDescription.
  repeat first
    [ apply signalling_getPeerConnection
    | apply signalling_updatePeerConnection
    | apply signalling_drainIceCandidates
    | signalling_step ].
Qed.

Lemma signalling_addIceCandidate rtc candidate :
  signalling (addIceCandidate rtc candidate).
Proof.
  unfold addIceCandidate.
  repeat first
    [ apply signalling_getPeerConnection
    | apply signalling_updatePeerConnection
    | apply signalling_tryAddIceCandidate
    | signalling_step ].
Qed.

Lemma signalling_connectToPeer rtc answer : signalling (connectToPeer rtc answer).
Proof.
  unfold connectToPeer.
  repeat first
    [ apply signalling_getPeerConnection
    | apply signalling_updatePeerConnection
    | apply signalling_setRemoteDescription
    | signalling_step ].
Qed.

Lemma signalling_handleServerMessage rtc message :
  signalling (handleServerMessage rtc message).
Proof.
  unfold handleServerMessage.
  repeat first
    [ apply signalling_emit
    | apply signalling_closeConnection
    | apply signalling_addIceCandidate
    | apply signalling_connectToPeer
    | apply signalling_sendToSignalServer
    | signalling_step ].
Qed.

(** The handler of relay frames catches what its body throws. *)
Lemma handleServerMessage_returns rtc message c :
  (handleServerMessage rtc message c).1.1 = Return tt.
Proof.
  unfold handleServerMessage, try_catch.
  match goal with |- context [match ?m c with _ => _ end] => destruct (m c) as [[[[]|e] c1] t1] end;
    reflexivity.
Qed.

(** *** Reconnection *)

Lemma timersOwned_cleared (c : WebRTCClient) :
  timersOwned c →
  filter (fun t : nat * nat => Some t.1 ≠ reconnectTimer c) (timers c) = [].
Proof.
  unfold timersOwned. intros Howned.
  induction (timers c) as [|[t ms] rest IH]; [done|].
  rewrite filter_cons_False.
  - apply IH. intros timer Hin. apply Howned. cbn. apply elem_of_cons. by right.
  - intros Hne. apply Hne. symmetry. apply Howned. cbn. apply elem_of_cons. by left.
Qed.

Lemma timersOwned_constructor name_ h : timersOwned (constructor name_ h).
Proof. intros timer Hin. cbn in Hin. by apply elem_of_nil in Hin. Qed.

Lemma socket_onclose_schedules (c : WebRTCClient) :
  timersOwned c → closed c = false → is_Some (stream c) →
  socket_onclose c
  = (Return tt,
     set_reconnectTimer (Some (nextHandle c))
       (set_nextHandle (S (nextHandle c))
          (set_timers [(nextHandle c, 1000)] (set_socket None c))),
     [Emit disconnected (default [] (listeners c !! "disconnected"));
      ClearTimeout (reconnectTimer c);
      SetTimeout (nextHandle c) 1000]).
Proof.
  intros Howned Hclosed [stream_ Hstream].
  unfold socket_onclose, reconnectToSignalServer, clearTimeout, setTimeout,
    emit, bind, get, modify, tell, ret.
  cbn. rewrite Hclosed, Hstream. cbn.
  by rewrite timersOwned_cleared.
Qed.

Lemma socket_onclose_idle (c : WebRTCClient) :
  closed c = true ∨ stream c = None →
  socket_onclose c
  = (Return tt, set_socket None c,
     [Emit disconnected (default [] (listeners c !! "disconnected"))]).
Proof.
  intros Hidle.
  unfold socket_onclose, emit, bind, get, modify, tell, ret. cbn.
  destruct Hidle as [->| ->]; [done|].
  rewrite bool_decide_false by (intros [? ?]; done).
  by rewrite andb_false_r.
Qed.




(** The ownership of timeouts is kept by whatever the browser does. *)
Lemma deliver_timersOwned (rtc : RTC.t) (event : BrowserEvent) (c : WebRTCClient) :
  timersOwned c → timersOwned (deliver rtc event c).1.2.
Proof.
  intros Howned.
  destruct event as [|msg| |timer]; cbn [deliver].
  - done.
  - unfold socket_onmessage.
    destruct (signalling_handleServerMessage rtc msg c)
      as [(_ & _ & _ & Hr & Ht & _) _].
    unfold timersOwned. by rewrite Hr, Ht.
  - destruct (closed c) eqn:Hclosed; [by rewrite socket_onclose_idle by by left|].
    destruct (stream c) eqn:Hstream; [|by rewrite socket_onclose_idle by by right].
    rewrite socket_onclose_schedules by (try done; by rewrite Hstream).
    intros timer Hin. cbn in *. apply list_elem_of_singleton in Hin. by subst.
  - unfold bind, get. destruct (isPending timer c); [|done].
    unfold modify, reconnectCallback, connectToSignalServer, bind, get, tell, modify.
    assert (∀ t, t ∈ (filter (fun t : nat * nat => t.1 ≠ timer) (timers c)).*1 →
                 reconnectTimer c = Some t) as Hfilter.
    { intros t Hin. apply Howned.
      apply list_elem_of_fmap in Hin as (x & -> & Hx).
      apply list_elem_of_filter in Hx as [_ Hx].
      apply list_elem_of_fmap. by exists x. }
    cbn. destruct (socket c); cbn; exact Hfilter.
Qed.

End ClientFacts.

Module ClientSpec.
Import Client ClientFacts Examples.

(** C10. [disconnect()] without a peer connection throws "No peer
    connection" at once: the client is left exactly as it was and
    nothing has been sent, closed, emitted or logged. *)
Theorem disconnect_without_session (c : WebRTCClient) :
  peerConnection c = None →
  disconnect c = (Throw (mkError "No peer connection"), c, []).
Proof.
  intros Hnone.
  unfold disconnect, sendToPeer, getPeerConnection, bind, get.
  by rewrite Hnone.
Qed.

Lemma disconnect_without_session_witness :
  disconnect alice_idle = (Throw (mkError "No peer connection"), alice_idle, []).
Proof. apply disconnect_without_session. reflexivity. Defined.

(** C1. While a peer connection exists, [invite] and [accept] throw
    before doing anything: the error names the active connection (or
    the missing stream, which is tested first), the client is left
    exactly as it was, and the trace of effects is empty. *)
Theorem session_conflict (rtc : RTC.t) (c : WebRTCClient) (pc : PeerConnection) :
  peerConnection c = Some pc →
  let message :=
    match stream c with
    | Some _ => "Client already has an active peer connection"
    | None => "Stream must be open to create a peer connection"
    end in
  (∀ peerId, invite rtc peerId c = (Throw (mkError message), c, []))
  ∧ (∀ offer_, accept rtc offer_ c = (Throw (mkError message), c, [])).
Proof.
  intros Hpc message. subst message.
  split; intros x;
    unfold invite, accept, createPeerConnection, bind, get;
    destruct (stream c); [by rewrite Hpc | done | by rewrite Hpc | done].
Qed.

Lemma session_conflict_witness :
  invite rtc0 "c1" alice_offering
  = (Throw (mkError "Client already has an active peer connection"),
     alice_offering, []).
Proof.
  exact (proj1 (session_conflict rtc0 alice_offering (session_with_bob []) eq_refl) "c1").
Defined.






(** C8, as the code has it. [invite(peerId)] succeeds from a client
    with an open stream and no peer connection when, in addition,
    [peerId] is a peer the client knows, the relay socket is connected
    and the browser generates an offer with a non-empty sdp and accepts
    it as local description. The transport and the data channel are
    created, the peer connection for that peer is recorded with an
    empty candidate queue, the local tracks are attached, [createOffer]
    and [setLocalDescription] are called, and one [offer] with the
    client's own id as source and [peerId] as target is sent. *)
Theorem invite_known_peer (rtc : RTC.t) (c : WebRTCClient) (peerId : string)
    (stream_ : MediaStream) (peer_ : Peer.t) (s : WebSocket)
    (offer_ : SessionDescriptionInit) :
  let fresh := {| remoteDescription := None; onicecandidate := None |} in
  stream c = Some stream_ →
  peerConnection c = None →
  peers c !! peerId = Some peer_ →
  socket c = Some s →
  RTC.createOffer rtc fresh = Return offer_ →
  truthy (sd_sdp offer_) = true →
  RTC.setLocalDescription rtc fresh offer_ = None →
  invite rtc peerId c
  = (Return tt,
     set_peerConnection
       (Some {| peer := peer_; connection := fresh;
                channel := {| readyState := connecting |};
                iceCandidates := [] |}) c,
     [NewRTCPeerConnection; CreateDataChannel]
       ++ map AddTrack stream_
       ++ [CreateOffer; SetLocalDescription offer_;
           SocketSend s (OfferMessage
                           {| Description.type := sd_type offer_;
                              Description.sdp := sd_sdp offer_;
                              Description.source := id c;
                              Description.target := peerId |})]).
Proof.
  intros fresh Hstream Hnone Hpeer Hsocket Hoffer Hsdp Hlocal.
  unfold invite, createPeerConnection, sendToSignalServer, await, bind, get.
  rewrite Hstream, Hnone, Hpeer. cbn. fold fresh.
  rewrite Hoffer, Hsdp. cbn. rewrite Hlocal. cbn. rewrite Hsocket.
  cbn. by rewrite !app_nil_r.
Qed.

Lemma invite_known_peer_witness :
  invite rtc0 "b1" alice_idle
  = (Return tt, alice_offering,
     [NewRTCPeerConnection; CreateDataChannel; AddTrack "audio"; AddTrack "video";
      CreateOffer; SetLocalDescription {| sd_type := "offer"; sd_sdp := Some "v=0 o" |};
      SocketSend 7 (OfferMessage (Description.mk "offer" (Some "v=0 o") "a1" "b1"))]).
Proof.
  exact (invite_known_peer rtc0 alice_idle "b1" ["audio"; "video"] bob 7
           {| sd_type := "offer"; sd_sdp := Some "v=0 o" |}
           eq_refl eq_refl eq_refl eq_refl eq_refl eq_refl eq_refl).
Defined.

(** C8, as stated, fails: with an open stream and no peer connection,
    inviting a peer the client has not heard of throws "Unknown peer"
    and creates nothing. *)
Lemma invite_unknown_peer_throws :
  is_Some (stream alice_idle)
  ∧ peerConnection alice_idle = None
  ∧ invite rtc0 "z9" alice_idle = (Throw (mkError "Unknown peer z9"), alice_idle, []).
Proof. split; [by eexists|]. split; reflexivity. Qed.

(** What a [reject] does, whoever it names as source. *)
Lemma reject_closes_any_session (rtc : RTC.t) (c : WebRTCClient)
    (pc : PeerConnection) (data : Reject.t) :
  peerConnection c = Some pc →
  handleServerMessage rtc (Rtc (RejectMessage data)) c
  = (Return tt, set_peerConnection None c,
     [ChannelClose; ConnectionClose;
      Emit (peerdisconnected (Peer.id (peer pc)))
           (default [] (listeners c !! "peerdisconnected"))]).
Proof.
  intros Hpc.
  unfold handleServerMessage, try_catch, closeConnection, bind, get.
  rewrite Hpc. reflexivity.
Qed.

(** What an [accept] from somebody else than the invited peer does: the
    transport is not touched and the client stays as it was; the error
    is thrown inside a promise nobody awaits. *)
Lemma accept_from_stranger_ignored (rtc : RTC.t) (c : WebRTCClient)
    (pc : PeerConnection) (data : Answer) :
  peerConnection c = Some pc →
  Peer.id (peer pc) ≠ Description.source data →
  handleServerMessage rtc (Rtc (AcceptMessage data)) c
  = (Return tt, c,
     [UnhandledRejection
        (mkError "Answer or offer doesn't match pending peer connection")]).
Proof.
  intros Hpc Hdiffers.
  unfold handleServerMessage, try_catch, detached, connectToPeer,
    setRemoteDescription, getPeerConnection, bind, get.
  rewrite Hpc. cbn. by rewrite bool_decide_true.
Qed.

(** The same frame from the invited peer: the answer becomes the remote
    description and the [onicecandidate] handler is installed. *)
Example accept_from_invited_peer :
  handleServerMessage rtc0
    (Rtc (AcceptMessage (Description.mk "answer" (Some "v=0 a") "b1" "a1")))
    alice_offering
  = (Return tt,
     set_peerConnection
       (Some {| peer := bob;
                connection :=
                  {| remoteDescription :=
                       Some (Description.mk "answer" (Some "v=0 a") "b1" "a1");
                     onicecandidate := Some "b1" |};
                channel := {| readyState := connecting |};
                iceCandidates := [] |})
       alice_idle,
     [SetRemoteDescription (Description.mk "answer" (Some "v=0 a") "b1" "a1")]).
Proof. reflexivity. Qed.

(** C4, on the code. Alice has invited Bob ([b1]); a [reject] whose
    source is Carol ([c1]) closes the channel and the transport, drops
    the peer connection and reports Bob as disconnected. *)
Theorem reject_from_stranger_tears_down :
  peerConnection alice_offering = Some (session_with_bob [])
  ∧ handleServerMessage rtc0
      (Rtc (RejectMessage {| Reject.source := "c1"; Reject.target := "a1" |}))
      alice_offering
    = (Return tt, alice_idle,
       [ChannelClose; ConnectionClose; Emit (peerdisconnected "b1") [0]]).
Proof. split; reflexivity. Qed.

(** C3. Inbound ICE candidates, for a client with a peer connection.
    (1) A frame whose id is not the id of the connection's peer is
    dropped with a warning; the client, its queue included, is left as
    it was. (2) While the remote description is not set, a sequence of
    frames appends to the queue the candidates of the frames that name
    the peer, in arrival order, warns once for each other frame, and
    calls the transport for none. (3) Setting the remote description for
    the peer, when the transport accepts it, is followed by one pass
    over the queue: every queued candidate is handed to the transport
    once, in queue order, a refusal is logged and the pass goes on, and
    the queue is empty afterwards. *)
Theorem ice_candidates_queue_and_drain (rtc : RTC.t) (c : WebRTCClient)
    (pc : PeerConnection) :
  peerConnection c = Some pc →
  (∀ data, IceCandidate.id data ≠ Peer.id (peer pc) →
     handleServerMessage rtc (Rtc (IceCandidateMessage data)) c
     = (Return tt, c, [ConsoleWarn (IgnoringIceCandidate (IceCandidate.id data))]))
  ∧ (remoteDescription (connection pc) = None →
     ∀ frames,
       run rtc (candidatesArrive frames) c
       = (Return tt,
          set_peerConnection
            (Some (set_iceCandidates
                     (iceCandidates pc
                        ++ map IceCandidate.candidate
                             (filter (fun data =>
                                        IceCandidate.id data = Peer.id (peer pc))
                                     frames)) pc)) c,
          map (fun data => ConsoleWarn (IgnoringIceCandidate (IceCandidate.id data)))
              (filter (fun data => IceCandidate.id data ≠ Peer.id (peer pc)) frames)))
  ∧ (∀ answerOrOffer,
       Description.source answerOrOffer = Peer.id (peer pc) →
       RTC.setRemoteDescription rtc (connection pc) answerOrOffer = None →
       let connection_ := set_remoteDescription (Some answerOrOffer) (connection pc) in
       setRemoteDescription rtc answerOrOffer c
       = (Return tt,
          set_peerConnection
            (Some (set_iceCandidates [] (set_connection connection_ pc))) c,
          SetRemoteDescription answerOrOffer
            :: drained rtc connection_ (iceCandidates pc))).
Proof.
  intros Hpc. repeat split.
  - intros data Hid. by apply (icecandidate_from_stranger rtc c pc).
  - intros Hremote frames. by apply candidatesArrive_spec.
  - intros answerOrOffer Hsource Haccepted connection_.
    unfold setRemoteDescription, getPeerConnection, bind, get.
    rewrite Hpc. cbn [ret].
    rewrite bool_decide_false by (intros []; done).
    unfold await, settled. rewrite Haccepted.
    unfold updatePeerConnection, modify. rewrite Hpc.
    cbn [fmap option_fmap option_map]. fold connection_.
    rewrite (drainIceCandidates_spec rtc connection_ (iceCandidates pc) _
               (set_connection connection_ pc)) by done.
    reflexivity.
Qed.

Lemma ice_candidates_queue_and_drain_witness :
  run rtc0
    (candidatesArrive
       [IceCandidate.mk "b1" "a1" "bad";
        IceCandidate.mk "c1" "a1" "stray";
        IceCandidate.mk "b1" "a1" "good"])
    alice_offering
  = (Return tt,
     set_peerConnection (Some (session_with_bob ["bad"; "good"])) alice_idle,
     [ConsoleWarn (IgnoringIceCandidate "c1")])
  ∧ setRemoteDescription rtc0 (Description.mk "answer" (Some "v=0 a") "b1" "a1")
      (set_peerConnection (Some (session_with_bob ["bad"; "good"])) alice_idle)
    = (Return tt,
       set_peerConnection
         (Some (set_iceCandidates []
                  (set_connection
                     {| remoteDescription :=
                          Some (Description.mk "answer" (Some "v=0 a") "b1" "a1");
                        onicecandidate := None |}
                     (session_with_bob ["bad"; "good"]))))
         alice_idle,
       [SetRemoteDescription (Description.mk "answer" (Some "v=0 a") "b1" "a1");
        AddIceCandidate "bad";
        ConsoleWarn (ErrorAddingIceCandidate "bad" (mkError "OperationError"));
        AddIceCandidate "good"]).
Proof.
  split.
  - exact (proj1 (proj2 (ice_candidates_queue_and_drain rtc0 alice_offering
                           (session_with_bob []) eq_refl)) eq_refl _).
  - exact (proj2 (proj2 (ice_candidates_queue_and_drain rtc0
                           (set_peerConnection
                              (Some (session_with_bob ["bad"; "good"])) alice_idle)
                           (session_with_bob ["bad"; "good"]) eq_refl))
                 (Description.mk "answer" (Some "v=0 a") "b1" "a1") eq_refl eq_refl).
Defined.



End ClientSpec.

(** ** More about the relay *)

Module RelayFacts.
Import Server ServerFacts Relay.

Lemma get_set_eq (connections : Connections) socket client :
  get (set connections socket client) socket = Some client.
Proof.
  induction connections as [|[s p] rest IH]; simpl.
  - by rewrite decide_True.
  - case_decide as Hs; simpl.
    + by rewrite decide_True.
    + by rewrite decide_False.
Qed.

Lemma get_set_ne (connections : Connections) socket s client :
  s ≠ socket → get (set connections socket client) s = get connections s.
Proof.
  intros Hne. induction connections as [|[s' p] rest IH]; simpl.
  - by rewrite decide_False.
  - case_decide as Hs; simpl.
    + subst. by rewrite !decide_False.
    + case_decide; [done|]. apply IH.
Qed.

Lemma set_keys_present (connections : Connections) socket old client :
  get connections socket = Some old →
  (set connections socket client).*1 = connections.*1.
Proof.
  induction connections as [|[s p] rest IH]; simpl; [done|].
  case_decide as Hs; simpl.
  - intros _. by subst.
  - intros Hget. f_equal. by apply IH.
Qed.

Lemma get_delete_eq (connections : Connections) socket :
  get (delete connections socket) socket = None.
Proof.
  induction connections as [|[s p] rest IH]; simpl; [done|].
  case_decide as Hs; simpl; [done|]. by rewrite decide_False.
Qed.

Lemma get_delete_ne (connections : Connections) socket s :
  s ≠ socket → get (delete connections socket) s = get connections s.
Proof.
  intros Hne. induction connections as [|[s' p] rest IH]; simpl; [done|].
  case_decide as Hs; simpl.
  - subst. by rewrite decide_False.
  - case_decide; [done|]. apply IH.
Qed.

Lemma delete_absent (connections : Connections) socket :
  get connections socket = None → delete connections socket = connections.
Proof.
  induction connections as [|[s p] rest IH]; simpl; [done|].
  case_decide as Hs; [done|]. intros Hget. by rewrite IH.
Qed.

Lemma delete_app (c1 c2 : Connections) socket :
  delete (c1 ++ c2) socket = delete c1 socket ++ delete c2 socket.
Proof.
  induction c1 as [|[s p] rest IH]; simpl; [done|].
  case_decide; simpl; by rewrite IH.
Qed.

Lemma getConnection_app_None (c1 c2 : Connections) t :
  getConnection c1 t = None → getConnection (c1 ++ c2) t = getConnection c2 t.
Proof.
  induction c1 as [|[s p] rest IH]; simpl; [done|].
  case_decide; [done|]. apply IH.
Qed.

Lemma getConnection_None_Forall (connections : Connections) (t : string) :
  Forall (fun e => Peer.id e.2 ≠ t) connections →
  getConnection connections (Some t) = None.
Proof.
  induction 1 as [|[s p] rest Hp _ IH]; simpl; [done|].
  rewrite decide_False; [done|]. simpl in Hp. congruence.
Qed.

Lemma recipients_app (t1 t2 : list Effect) :
  recipients (t1 ++ t2) = recipients t1 ++ recipients t2.
Proof.
  induction t1 as [|e t1 IH]; [done|].
  destruct e; simpl; by rewrite ?IH.
Qed.

Lemma recipients_flat_map {A} (f : A → list Effect) (l : list A) (P : WebSocket → Prop) :
  (∀ a, a ∈ l → Forall P (recipients (f a))) →
  Forall P (recipients (flat_map f l)).
Proof.
  induction l as [|a l IH]; simpl; intros Hf; [constructor|].
  rewrite recipients_app. apply Forall_app. split.
  - apply Hf. apply elem_of_cons. by left.
  - apply IH. intros b Hb. apply Hf. apply elem_of_cons. by right.
Qed.

Lemma getConnection_registered (connections : Connections) t s :
  getConnection connections t = Some s → s ∈ connections.*1.
Proof.
  induction connections as [|[s' p] rest IH]; simpl; [done|].
  case_decide.
  - intros [= ->]. apply elem_of_cons. by left.
  - intros H'. apply elem_of_cons. right. by apply IH.
Qed.

(** *** What the relay tells a client, and what the client then knows *)

Lemma sentTo_send s x message :
  sentTo s (send x message) = if decide (x = Some s) then [message] else [].
Proof.
  destruct x as [s'|]; simpl.
  - destruct (decide (s' = s)) as [->|Hne];
      destruct (decide (Some _ = Some s)); congruence.
  - by destruct (decide (None = Some s)).
Qed.

Lemma view_app (l1 l2 : list ServerMessage) :
  view (l1 ++ l2) = foldl learn (view l1) l2.
Proof. unfold view. by rewrite foldl_app. Qed.

Lemma learn_announced (known : gmap string Peer.t) (p : Peer.t) :
  learn known (PeerMessage (Peer.with_remove p None))
  = <[Peer.id p := Peer.with_remove p None]> known.
Proof. reflexivity. Qed.

Lemma learn_removed (known : gmap string Peer.t) (p : Peer.t) :
  learn known (PeerMessage (Peer.with_remove p (Some true)))
  = base.delete (Peer.id p) known.
Proof. reflexivity. Qed.

Lemma learn_snapshot (l : Connections) :
  ∀ (known : gmap string Peer.t) k v,
    NoDup (map (fun e => Peer.id e.2) l) →
    foldl learn known (map (fun e => PeerMessage (Peer.with_remove e.2 None)) l) !! k
    = Some v
    ↔ (∃ s p, (s, p) ∈ l ∧ Peer.id p = k ∧ v = Peer.with_remove p None)
      ∨ ((k ∉ map (fun e => Peer.id e.2) l) ∧ known !! k = Some v).
Proof.
  induction l as [|[s p] rest IH]; intros known k v Hnd.
  - cbn. split.
    + intros Hk. right. split; [apply not_elem_of_nil | done].
    + intros [(s & p & Hin & _)|[_ Hk]]; [by apply elem_of_nil in Hin | done].
  - cbn [map foldl]. rewrite learn_announced.
    apply NoDup_cons in Hnd as [Hfresh Hnd]. cbn in Hfresh.
    rewrite IH by done. rewrite lookup_insert_Some. split.
    + intros [(s' & p' & Hin & Hid & Hv)|[Hk [[Hid Hv]|[Hid Hv]]]].
      * left. exists s', p'. split; [apply elem_of_cons; by right | done].
      * left. exists s, p. split; [apply elem_of_cons; by left | done].
      * right. split; [|done]. apply not_elem_of_cons. split; [congruence | done].
    + intros [(s' & p' & Hin & Hid & Hv)|[Hk Hv]].
      * apply elem_of_cons in Hin as [[= -> ->]|Hin].
        -- right. split; [|left; by split]. by rewrite <- Hid.
        -- left. by exists s', p'.
      * apply not_elem_of_cons in Hk as [Hk Hrest]. right. split; [done|].
        right. split; [congruence | done].
Qed.

Lemma elem_of_set (connections : Connections) s p s' q :
  wf connections →
  (s', q) ∈ set connections s p
  ↔ (s' = s ∧ q = p) ∨ (s' ≠ s ∧ (s', q) ∈ connections).
Proof.
  unfold wf. induction connections as [|[s0 p0] rest IH]; intros Hnd; simpl.
  - rewrite list_elem_of_singleton. split.
    + intros [= -> ->]. by left.
    + intros [[-> ->]|[_ Hin]]; [done | by apply elem_of_nil in Hin].
  - apply NoDup_cons in Hnd as [Hfresh Hnd]. simpl in Hfresh.
    case_decide as Hs0.
    + subst s0. rewrite !elem_of_cons. split.
      * intros [[= -> ->]|Hin]; [by left|]. right. split; [|by right].
        intros ->. apply Hfresh. apply list_elem_of_fmap. by exists (s, q).
      * intros [[-> ->]|[Hne [[= -> ->]|Hin]]]; [by left | done | by right].
    + rewrite !elem_of_cons, IH by done. split.
      * intros [[= -> ->]|[[-> ->]|[Hne Hin]]].
        -- right. split; [done | by left].
        -- by left.
        -- right. split; [done | by right].
      * intros [[-> ->]|[Hne [[= -> ->]|Hin]]].
        -- right. by left.
        -- by left.
        -- right. right. by split.
Qed.

Lemma ids_unique (idOf : WebSocket → string) `{!Inj (=) (=) idOf}
    (connections : Connections) :
  wf connections →
  (∀ s p, (s, p) ∈ connections → Peer.id p = idOf s) →
  NoDup (map (fun e => Peer.id e.2) connections).
Proof.
  unfold wf. intros Hnd Hids.
  assert (map (fun e => Peer.id e.2) connections = idOf <$> connections.*1) as ->.
  { clear Hnd. induction connections as [|[s p] rest IH]; [done|]. cbn. f_equal.
    - apply Hids. apply elem_of_cons. by left.
    - apply IH. intros s' p' Hin. apply Hids. apply elem_of_cons. by right. }
  by apply NoDup_fmap_2.
Qed.

Lemma identify_sends (connections : Connections) (socket : WebSocket) (client : Peer.t) :
  wf connections →
  let trace := (handleMessage (IdentifyMessage client) socket connections).1 in
  (get connections socket = None →
     sentTo socket trace
     = map (fun e => PeerMessage (Peer.with_remove e.2 None)) connections)
  ∧ (∀ psock peer, (psock, peer) ∈ connections →
       sentTo psock trace
       = if decide (Peer.id peer ≠ Peer.id client)
         then [PeerMessage (Peer.with_remove client None)] else [])
  ∧ (∀ s, s ≠ socket → get connections s = None → sentTo s trace = []).
Proof.
  intros Hwf trace. subst trace. cbn [handleMessage fst].
  rewrite announce_as_broadcast. split; [|split].
  - intros Hnew.
    assert (tellNewClient connections socket client
            = flat_map (fun '(_, peer) => notifyClient socket client peer None)
                       connections) as ->.
    { unfold tellNewClient, has. by rewrite Hnew. }
    rewrite !sentTo_app, sentTo_tell.
    rewrite sentTo_broadcast_absent by by apply get_None_notin.
    simpl. by rewrite !app_nil_r.
  - intros psock peer Hin.
    assert (sentTo psock (tellNewClient connections socket client) = []) as Htell.
    { unfold tellNewClient, has.
      destruct (get connections socket) eqn:Hget; [done|].
      apply (sentTo_tell_other socket psock client connections None). intros ->.
      apply get_None_notin in Hget. apply Hget.
      apply list_elem_of_fmap. by exists (socket, peer). }
    rewrite !sentTo_app, Htell, (sentTo_broadcast_present _ _ _ _ peer) by done.
    simpl. rewrite !app_nil_r. case_bool_decide; by case_decide.
  - intros s Hne Hs.
    assert (sentTo s (tellNewClient connections socket client) = []) as Htell.
    { unfold tellNewClient. destruct (negb _); [|done].
      by apply (sentTo_tell_other socket s client connections None). }
    rewrite !sentTo_app, Htell.
    rewrite sentTo_broadcast_absent by by apply get_None_notin.
    done.
Qed.

Section Consistency.
Context (idOf : WebSocket → string) `{!Inj (=) (=) idOf}.

Lemma otherEntry_set (connections : Connections) s p s0 k v :
  wf connections →
  otherEntry (set connections s p) s0 k v
  ↔ (s ≠ s0 ∧ Peer.id p = k ∧ v = Peer.with_remove p None)
    ∨ (∃ s' q, (s', q) ∈ connections ∧ s' ≠ s ∧ s' ≠ s0
               ∧ Peer.id q = k ∧ v = Peer.with_remove q None).
Proof.
  intros Hwf. unfold otherEntry. split.
  - intros (s' & q & Hin & Hne & Hid & Hv).
    apply (elem_of_set _ _ _ _ _ Hwf) in Hin as [[-> ->]|[Hs Hin]].
    + by left.
    + right. by exists s', q.
  - intros [(Hne & Hid & Hv)|(s' & q & Hin & Hs & Hne & Hid & Hv)].
    + exists s, p. split; [|done]. apply (elem_of_set _ _ _ _ _ Hwf). by left.
    + exists s', q. split; [|done]. apply (elem_of_set _ _ _ _ _ Hwf). by right.
Qed.

Lemma identify_consistent (connections : Connections) (trace : list Effect)
    (s : WebSocket) (p : Peer.t) (rest : list Input) :
  consistent idOf connections trace →
  untouched connections trace (Frame s (IdentifyMessage p) :: rest) →
  Peer.id p = idOf s →
  let t1 := (handleMessage (IdentifyMessage p) s connections).1 in
  consistent idOf (set connections s p) (trace ++ t1)
  ∧ untouched (set connections s p) (trace ++ t1) rest.
Proof.
  intros (Hwf & Hids & Hviews) Hunt Hid t1.
  destruct (identify_sends connections s p Hwf) as (Hnew & Hreg & Hnone).
  fold t1 in Hnew, Hreg, Hnone.
  assert (wf (set connections s p)) as Hwf' by by apply set_wf.
  assert (∀ s' q, (s', q) ∈ set connections s p → Peer.id q = idOf s') as Hids'.
  { intros s' q Hin. apply (elem_of_set _ _ _ _ _ Hwf) in Hin as [[-> ->]|[_ Hin]]; auto. }
  split; [split; [done|split; [done|]]|].
  - intros s0 q0 Hin k v. rewrite sentTo_app, view_app.
    rewrite otherEntry_set by done.
    apply (elem_of_set _ _ _ _ _ Hwf) in Hin as [[-> ->]|[Hne Hin]].
    + destruct (get connections s) as [p0|] eqn:Hget.
      * pose proof (get_Some_elem _ _ _ Hget) as Hin0.
        rewrite (Hreg s p0 Hin0).
        rewrite decide_False by (rewrite Hid; intros Hne; apply Hne; by apply Hids).
        cbn [foldl]. rewrite (Hviews s p0 Hin0). unfold otherEntry. split.
        -- intros (s' & q & Hin & Hne & Hk & Hv). right. by exists s', q.
        -- intros [(Hne & _)|(s' & q & Hin & Hne & _ & Hk & Hv)]; [done|].
           by exists s', q.
      * rewrite Hnew by done.
        rewrite (Hunt s) by (done || (cbn; apply elem_of_cons; by left)).
        change (view []) with (∅ : gmap string Peer.t).
        rewrite learn_snapshot by by apply (ids_unique idOf).
        rewrite lookup_empty. apply get_None_notin in Hget. split.
        -- intros [(s' & q & Hin & Hk & Hv)|[_ ?]]; [|done].
           right. exists s', q. repeat split; try done.
           all: intros ->; apply Hget; apply list_elem_of_fmap; by exists (s, q).
        -- intros [(Hne & _)|(s' & q & Hin & Hne & _ & Hk & Hv)]; [done|].
           left. by exists s', q.
    + assert (Peer.id q0 ≠ Peer.id p) as Hdiffer.
      { rewrite Hid, (Hids s0 q0 Hin). intros Heq. by apply (inj idOf) in Heq. }
      rewrite (Hreg s0 q0 Hin), decide_True by done.
      cbn [foldl]. rewrite learn_announced, lookup_insert_Some.
      rewrite (Hviews s0 q0 Hin). unfold otherEntry. split.
      * intros [[Hk Hv]|[Hk (s' & q & Hin' & Hne' & Hk' & Hv)]].
        -- left. repeat split; try done; congruence.
        -- right. exists s', q. repeat split; try done.
           all: intros ->; apply Hk; rewrite <- Hk', Hid; symmetry; by apply Hids.
      * intros [(_ & Hk & Hv)|(s' & q & Hin' & Hs & Hne' & Hk & Hv)].
        -- left. by split.
        -- right. split.
           ++ rewrite <- Hk, Hid, (Hids s' q Hin'). intros Heq.
              apply (inj idOf) in Heq. congruence.
           ++ by exists s', q.
  - intros s' Hin Hget. rewrite sentTo_app.
    assert (s' ≠ s) as Hne.
    { intros ->. by rewrite get_set_eq in Hget. }
    rewrite get_set_ne in Hget by done.
    rewrite (Hunt s') by (done || (cbn; apply elem_of_cons; by right)).
    by rewrite Hnone.
Qed.

Lemma route_consistent (connections : Connections) (trace : list Effect)
    (s : WebSocket) (msg : RtcMessage) (t : string) (rest : list Input) :
  target msg = Some t →
  consistent idOf connections trace →
  untouched connections trace (Frame s msg :: rest) →
  let t1 := (handleMessage msg s connections).1 in
  (handleMessage msg s connections).2 = connections
  ∧ consistent idOf connections (trace ++ t1)
  ∧ untouched connections (trace ++ t1) rest.
Proof.
  intros Ht (Hwf & Hids & Hviews) Hunt t1.
  assert (handleMessage msg s connections
          = (send (getConnection connections (Some t)) (Rtc msg), connections)) as Heq.
  { destruct msg; simpl in *; try done; injection Ht as Ht; by rewrite Ht. }
  subst t1. rewrite Heq. cbn [fst snd].
  split; [done|]. split; [split; [done|split; [done|]]|].
  - intros s0 q0 Hin k v. rewrite sentTo_app, view_app, sentTo_send.
    rewrite <- (Hviews s0 q0 Hin). by case_decide.
  - intros s' Hin Hget. rewrite sentTo_app, sentTo_send.
    rewrite (Hunt s') by (done || (cbn; apply elem_of_cons; by right)).
    case_decide as Hto; [|done].
    apply getConnection_registered in Hto. by apply get_None_notin in Hget.
Qed.

Lemma close_consistent (connections : Connections) (trace : list Effect)
    (s : WebSocket) (rest : list Input) :
  consistent idOf connections trace →
  untouched connections trace (Closed s :: rest) →
  s ∉ map socketOf rest →
  let t1 := (onClose s connections).1 in
  consistent idOf (onClose s connections).2 (trace ++ t1)
  ∧ untouched (onClose s connections).2 (trace ++ t1) rest.
Proof.
  intros (Hwf & Hids & Hviews) Hunt Hgone t1. subst t1.
  unfold onClose. destruct (get connections s) as [p0|] eqn:Hget; cbn [fst snd].
  - pose proof (get_Some_elem _ _ _ Hget) as Hin0.
    split; [split; [by apply delete_wf|split]|].
    + intros s' q Hin. apply delete_elem in Hin as [_ Hin]. by apply Hids.
    + intros s0 q0 Hin k v. rewrite sentTo_app, view_app. cbn [sentTo].
      rewrite (sentTo_broadcast_present (fun _ => true) p0 (Some true) s0 q0)
        by (done || by apply delete_wf).
      apply delete_elem in Hin as [Hne Hin].
      cbn [foldl]. rewrite learn_removed, lookup_delete_Some.
      rewrite (Hviews s0 q0 Hin). unfold otherEntry. split.
      * intros [Hk (s' & q & Hin' & Hne' & Hk' & Hv)].
        exists s', q. repeat split; try done. apply delete_elem. split; [|done].
        intros ->. apply Hk. rewrite <- Hk'.
        pose proof (elem_get_Some _ _ _ Hwf Hin') as Hget'. congruence.
      * intros (s' & q & Hin' & Hne' & Hk & Hv).
        apply delete_elem in Hin' as [Hs Hin']. split.
        -- rewrite <- Hk, (Hids s p0 Hin0), (Hids s' q Hin'). intros Heq.
           apply (inj idOf) in Heq. congruence.
        -- by exists s', q.
    + intros s' Hin Hnone. rewrite sentTo_app. cbn [sentTo].
      assert (s' ≠ s) as Hne by (intros ->; done).
      rewrite get_delete_ne in Hnone by done.
      rewrite (Hunt s') by (done || (cbn; apply elem_of_cons; by right)).
      rewrite (sentTo_broadcast_absent (fun _ => true) p0 (Some true)); [done|].
      rewrite delete_keys. intros [_ Hreg]. by apply get_None_notin in Hnone.
  - rewrite app_nil_r. split; [done|].
    intros s' Hin Hnone. apply Hunt; [|done]. cbn. apply elem_of_cons. by right.
Qed.

Lemma steps_consistent (inputs : list Input) :
  ∀ (connections : Connections) (trace : list Effect),
    consistent idOf connections trace →
    untouched connections trace inputs →
    Forall (honest idOf) inputs →
    orderly inputs →
    consistent idOf (steps inputs connections).2
               (trace ++ (steps inputs connections).1).
Proof.
  induction inputs as [|input rest IH]; intros connections trace Hcons Hunt Hhonest Hord.
  - cbn. by rewrite app_nil_r.
  - apply Forall_cons in Hhonest as [Hinput Hhonest]. destruct Hord as [Hclosed Hord].
    cbn [steps].
    assert (consistent idOf (step input connections).2
                       (trace ++ (step input connections).1)
            ∧ untouched (step input connections).2
                        (trace ++ (step input connections).1) rest) as [Hcons1 Hunt1].
    { destruct input as [s msg|s]; cbn [step].
      - destruct (target msg) as [t|] eqn:Ht.
        + destruct (route_consistent connections trace s msg t rest Ht Hcons Hunt)
            as (-> & ? & ?). by split.
        + destruct msg; try done. by apply identify_consistent.
      - by apply close_consistent. }
    destruct (step input connections) as [t1 c1]. cbn [fst snd] in *.
    specialize (IH c1 (trace ++ t1) Hcons1 Hunt1 Hhonest Hord).
    destruct (steps rest c1) as [t2 c2]. cbn [fst snd] in *.
    by rewrite app_assoc.
Qed.

End Consistency.

(** *** The relay forwards, it does not write *)

Lemma Forall_flat_map_all {A B} (P : B → Prop) (f : A → list B) (l : list A) :
  (∀ a, Forall P (f a)) → Forall P (flat_map f l).
Proof.
  intros Hf. induction l as [|a l IH]; simpl; [constructor|].
  apply Forall_app. split; [apply Hf | apply IH].
Qed.

Lemma step_forwards (input : Input) (connections : Connections) s m :
  Send s (Rtc m) ∈ (step input connections).1 →
  ∃ sender, input = Frame sender m ∧ s ∈ connections.*1.
Proof.
  destruct input as [sender msg|socket]; cbn [step].
  - destruct (target msg) as [t|] eqn:Ht.
    + assert ((handleMessage msg sender connections).1
              = send (getConnection connections (Some t)) (Rtc msg)) as ->.
      { destruct msg; simpl in *; try done; injection Ht as Ht; by rewrite Ht. }
      destruct (getConnection connections (Some t)) as [s'|] eqn:Hs; simpl.
      * intros [= -> ->]%list_elem_of_singleton. exists sender. split; [done|].
        by apply (getConnection_registered _ (Some t)).
      * intros Hin. by apply elem_of_nil in Hin.
    + destruct msg; try done. cbn [handleMessage fst]. intros Hin. exfalso.
      assert (Forall ownWords
                ((tellNewClient connections sender data ++ announce connections data)
                   ++ [AwaitAll (length (tellNewClient connections sender data
                                           ++ announce connections data));
                       MapSet sender data])) as Hall.
      { apply Forall_app. split; [apply Forall_app; split|by repeat constructor].
        - unfold tellNewClient. destruct (negb _); [|constructor].
          apply Forall_flat_map_all. intros [? ?]. by repeat constructor.
        - apply Forall_flat_map_all. intros [? ?]. case_decide; by repeat constructor. }
      rewrite Forall_forall in Hall. exact (Hall _ Hin).
  - unfold onClose. destruct (get connections socket); cbn [fst];
      [|intros Hin; by apply elem_of_nil in Hin].
    intros Hin. exfalso.
    apply elem_of_cons in Hin as [?|Hin]; [done|].
    assert (Forall ownWords
              (flat_map (fun '(sock, peer) => notifyClient sock peer t (Some true))
                        (delete connections socket))) as Hall.
    { apply Forall_flat_map_all. intros [? ?]. by repeat constructor. }
    rewrite Forall_forall in Hall. exact (Hall _ Hin).
Qed.

End RelayFacts.

Module RelaySpec.
Import Server ServerFacts Relay RelayFacts Examples.

(** X1. An [identify] from a connection that is already registered (a
    change of name, or of id): the connection is sent no snapshot of the
    registry; every registered connection whose stored id differs from
    the new record's id, the sender included when it changes its id, is
    sent the new record once and the others nothing; the record replaces
    the old one in place, so the order of the registry and every other
    entry stay as they were. *)
Theorem identify_from_registered_connection
    (connections : Connections) (socket : WebSocket) (old client : Peer.t) :
  wf connections →
  get connections socket = Some old →
  let trace := (handleMessage (IdentifyMessage client) socket connections).1 in
  let connections' := (handleMessage (IdentifyMessage client) socket connections).2 in
  (∀ psock peer, (psock, peer) ∈ connections →
     sentTo psock trace
     = if decide (Peer.id peer ≠ Peer.id client)
       then [PeerMessage (Peer.with_remove client None)] else [])
  ∧ (∀ s, get connections s = None → sentTo s trace = [])
  ∧ get connections' socket = Some client
  ∧ (∀ s, s ≠ socket → get connections' s = get connections s)
  ∧ connections'.*1 = connections.*1.
Proof.
  intros Hwf Hold trace connections'. subst trace connections'.
  cbn [handleMessage fst snd].
  assert (tellNewClient connections socket client = []) as ->.
  { unfold tellNewClient, has. by rewrite Hold. }
  rewrite announce_as_broadcast. cbn [app].
  repeat split.
  - intros psock peer Hin.
    rewrite sentTo_app, (sentTo_broadcast_present _ _ _ _ peer) by done.
    simpl. rewrite app_nil_r. case_bool_decide; by case_decide.
  - intros s Hs.
    rewrite sentTo_app, sentTo_broadcast_absent by by apply get_None_notin.
    done.
  - apply get_set_eq.
  - intros s Hne. by apply get_set_ne.
  - by apply (set_keys_present _ _ old).
Qed.

Lemma identify_from_registered_connection_witness :
  handleMessage (IdentifyMessage (Peer.mk "b1" "Robert" None)) 2
    [(1, alice); (2, bob); (3, carol)]
  = ([Send 1 (PeerMessage (Peer.mk "b1" "Robert" None));
      Send 3 (PeerMessage (Peer.mk "b1" "Robert" None));
      AwaitAll 2; MapSet 2 (Peer.mk "b1" "Robert" None)],
     [(1, alice); (2, Peer.mk "b1" "Robert" None); (3, carol)])
  ∧ sentTo 2 (handleMessage (IdentifyMessage (Peer.mk "b1" "Robert" None)) 2
                [(1, alice); (2, bob); (3, carol)]).1 = [].
Proof.
  split; [reflexivity|].
  refine (proj1 (identify_from_registered_connection
                   [(1, alice); (2, bob); (3, carol)] 2 bob
                   (Peer.mk "b1" "Robert" None) _ eq_refl) 2 bob _).
  - unfold wf; simpl; repeat constructor; set_solver.
  - set_solver.
Defined.

(** X2. Whatever frames arrive and whatever sockets close, in whatever
    order, a socket keys at most one entry of the registry. *)
Theorem registry_keys_stay_unique (inputs : list Input) (connections : Connections) :
  wf connections → wf (steps inputs connections).2.
Proof.
  revert connections.
  induction inputs as [|input rest IH]; intros connections Hwf; [done|].
  cbn [steps].
  assert (wf (step input connections).2) as Hstep.
  { destruct input as [socket msg|socket]; cbn [step].
    - destruct msg; cbn [handleMessage snd]; try done. by apply set_wf.
    - unfold onClose. destruct (get connections socket); [|done].
      by apply delete_wf. }
  destruct (step input connections) as [t1 c1].
  specialize (IH c1 Hstep).
  by destruct (steps rest c1) as [t2 c2].
Qed.

Lemma registry_keys_stay_unique_witness :
  wf (steps [Frame 1 (IdentifyMessage alice); Frame 2 (IdentifyMessage bob);
             Frame 1 (IdentifyMessage (Peer.mk "a1" "Alicia" None)); Closed 2] []).2.
Proof.
  apply registry_keys_stay_unique. unfold wf. simpl. constructor.
Defined.

(** X3. The relay writes only to registered sockets. A routed frame goes
    to a registered socket or nowhere, never back to a sender that is
    not registered; an [identify] writes to the identifying socket and
    to registered ones; the close handler writes to registered sockets
    other than the one that closed. *)
Theorem relay_writes_to_registered_sockets
    (socket : WebSocket) (connections : Connections) :
  (∀ msg, Forall (fun s => s = socket ∨ s ∈ connections.*1)
                 (recipients (handleMessage msg socket connections).1))
  ∧ (∀ msg t, target msg = Some t →
       Forall (fun s => s ∈ connections.*1)
              (recipients (handleMessage msg socket connections).1))
  ∧ Forall (fun s => s ≠ socket ∧ s ∈ connections.*1)
           (recipients (onClose socket connections).1).
Proof.
  assert (∀ msg t, target msg = Some t →
            Forall (fun s => s ∈ connections.*1)
                   (recipients (handleMessage msg socket connections).1)) as Hroute.
  { intros msg t Ht.
    assert ((handleMessage msg socket connections).1
            = send (getConnection connections (Some t)) (Rtc msg)) as ->.
    { destruct msg; simpl in *; try done; by simplify_eq. }
    destruct (getConnection connections (Some t)) as [s|] eqn:Hs; simpl;
      [|constructor].
    constructor; [|constructor]. by apply (getConnection_registered _ (Some t)). }
  repeat split.
  - intros msg. destruct (target msg) as [t|] eqn:Ht.
    + eapply Forall_impl; [by apply (Hroute msg t)|]. intros s Hs. by right.
    + destruct msg; try done. cbn [handleMessage fst].
      rewrite !recipients_app.
      apply Forall_app; split; [apply Forall_app; split|].
      * unfold tellNewClient. destruct (negb _); [|constructor].
        apply recipients_flat_map. intros [s p] _.
        constructor; [by left | constructor].
      * apply recipients_flat_map. intros [s p] Hin.
        case_decide; [|constructor]. constructor; [|constructor]. right.
        apply list_elem_of_fmap. by exists (s, p).
      * constructor.
  - done.
  - unfold onClose. destruct (get connections socket) as [client|]; [|constructor].
    cbn [fst recipients]. apply recipients_flat_map.
    intros [s p] Hin. apply delete_elem in Hin as [Hne Hin].
    constructor; [|constructor]. split; [done|].
    apply list_elem_of_fmap. by exists (s, p).
Qed.

Lemma relay_writes_to_registered_sockets_witness :
  Forall (fun s => s ∈ [(1, alice); (2, bob)].*1)
         (recipients (handleMessage offer_to_bob 9 [(1, alice); (2, bob)]).1).
Proof.
  exact (proj1 (proj2 (relay_writes_to_registered_sockets 9 [(1, alice); (2, bob)]))
               offer_to_bob "b1" eq_refl).
Defined.

(** X4. Registering and leaving undo each other: when a connection that
    is not in the registry identifies and then closes, the registry is
    again what it was before, and the close told exactly the connections
    that had been there, once each, that the record is gone. *)
Theorem identify_then_close_restores
    (connections : Connections) (socket : WebSocket) (client : Peer.t) :
  wf connections →
  get connections socket = None →
  let registered := (handleMessage (IdentifyMessage client) socket connections).2 in
  (onClose socket registered).2 = connections
  ∧ (onClose socket registered).1
    = MapDelete socket
        :: map (fun e => Send e.1 (PeerMessage (Peer.with_remove client (Some true))))
               connections.
Proof.
  intros Hwf Hnew registered. subst registered.
  cbn [handleMessage snd]. rewrite set_fresh by done.
  assert (get (connections ++ [(socket, client)]) socket = Some client) as Hget.
  { rewrite <- set_fresh by done. apply get_set_eq. }
  assert (delete (connections ++ [(socket, client)]) socket = connections) as Hdel.
  { rewrite delete_app, delete_absent by done. simpl.
    rewrite decide_True by done. apply app_nil_r. }
  unfold onClose. rewrite Hget, Hdel. cbn [fst snd]. split; [done|].
  f_equal. clear. induction connections as [|[s p] rest IH]; simpl; [done|].
  by rewrite IH.
Qed.

Lemma identify_then_close_restores_witness :
  (onClose 3 (handleMessage (IdentifyMessage carol) 3 [(1, alice); (2, bob)]).2).2
  = [(1, alice); (2, bob)].
Proof.
  refine (proj1 (identify_then_close_restores [(1, alice); (2, bob)] 3 carol _ eq_refl)).
  unfold wf; simpl; repeat constructor; set_solver.
Defined.

(** X5. A socket is unregistered once: after its close handler has run,
    the registry has no entry for it, a second run of the handler sends
    nothing and changes nothing, and a frame routed to the id only it
    had presented is dropped. *)
Theorem close_is_final (socket : WebSocket) (connections : Connections) :
  let connections' := (onClose socket connections).2 in
  get connections' socket = None
  ∧ onClose socket connections' = ([], connections')
  ∧ (∀ client msg sender,
       get connections socket = Some client →
       target msg = Some (Peer.id client) →
       Forall (fun e => e.1 ≠ socket → Peer.id e.2 ≠ Peer.id client) connections →
       handleMessage msg sender connections' = ([], connections')).
Proof.
  intros connections'. subst connections'.
  assert (get (onClose socket connections).2 socket = None) as Hgone.
  { unfold onClose. destruct (get connections socket) eqn:Hget; cbn [snd]; [|done].
    apply get_delete_eq. }
  repeat split.
  - done.
  - unfold onClose at 1. by rewrite Hgone.
  - intros client msg sender Hget Ht Hothers.
    unfold onClose. rewrite Hget. cbn [snd].
    assert (handleMessage msg sender (delete connections socket)
            = (send (getConnection (delete connections socket) (Some (Peer.id client)))
                    (Rtc msg),
               delete connections socket)) as ->.
    { destruct msg; simpl in *; try done; injection Ht as Ht; by rewrite Ht. }
    rewrite getConnection_None_Forall; [done|].
    clear Hget Hgone. induction Hothers as [|[s p] rest Hp _ IH]; simpl; [constructor|].
    case_decide; [done|]. constructor; [|done]. by apply Hp.
Qed.

Lemma close_is_final_witness :
  handleMessage offer_to_bob 1 (onClose 2 [(1, alice); (2, bob)]).2
  = ([], [(1, alice)]).
Proof.
  refine (proj2 (proj2 (close_is_final 2 [(1, alice); (2, bob)]))
                bob offer_to_bob 1 eq_refl eq_refl _).
  repeat constructor; simpl; intros; done.
Defined.

(** X6. Two connections that present the same id: frames for that id go
    to the one registered first, and after that one has closed they go
    to the other. *)
Theorem duplicate_id_shadowing
    (before between after : Connections) (s1 s2 : WebSocket) (p1 p2 : Peer.t)
    (msg : RtcMessage) (sender : WebSocket) :
  let connections := before ++ (s1, p1) :: between ++ (s2, p2) :: after in
  wf connections →
  target msg = Some (Peer.id p1) →
  Peer.id p2 = Peer.id p1 →
  Forall (fun e => Peer.id e.2 ≠ Peer.id p1) (before ++ between) →
  (handleMessage msg sender connections).1 = [Send s1 (Rtc msg)]
  ∧ (handleMessage msg sender (onClose s1 connections).2).1 = [Send s2 (Rtc msg)].
Proof.
  intros connections Hwf Ht Hid Hothers.
  apply Forall_app in Hothers as [Hbefore Hbetween].
  assert (∀ cs, (handleMessage msg sender cs).1
                = send (getConnection cs (Some (Peer.id p1))) (Rtc msg)) as Hroute.
  { intros cs. destruct msg; simpl in *; try done; injection Ht as Ht; by rewrite Ht. }
  rewrite !Hroute. split.
  - subst connections.
    rewrite getConnection_app_None by by apply getConnection_None_Forall.
    simpl. by rewrite decide_True.
  - assert (get connections s1 = Some p1) as Hget.
    { apply elem_get_Some; [done|]. subst connections.
      apply elem_of_app. right. apply elem_of_cons. by left. }
    unfold onClose. rewrite Hget. cbn [snd].
    assert ((s1 ∉ before.*1) ∧ (s1 ∉ between.*1) ∧ s1 ≠ s2 ∧ (s1 ∉ after.*1))
      as (Hb & Hm & Hne & Ha).
    { unfold wf in Hwf. subst connections.
      rewrite fmap_app, fmap_cons, fmap_app, fmap_cons in Hwf.
      apply NoDup_app in Hwf as (_ & Hdisj & Hrest).
      apply NoDup_cons in Hrest as [Hnotin _]. simpl in *.
      rewrite not_elem_of_app, not_elem_of_cons in Hnotin.
      destruct Hnotin as (? & ? & ?).
      repeat split; try done.
      intros Hin. apply (Hdisj s1 Hin). apply elem_of_cons. by left. }
    subst connections.
    rewrite delete_app. simpl. rewrite decide_True by done.
    rewrite delete_app. simpl. rewrite decide_False by done.
    rewrite !delete_absent by by apply get_None_notin.
    rewrite getConnection_app_None by by apply getConnection_None_Forall.
    rewrite getConnection_app_None by by apply getConnection_None_Forall.
    simpl. rewrite decide_True by by f_equal. done.
Qed.

Lemma duplicate_id_shadowing_witness :
  (handleMessage offer_to_bob 1 [(1, alice); (2, bob); (3, carol); (4, bob)]).1
  = [Send 2 (Rtc offer_to_bob)]
  ∧ (handleMessage offer_to_bob 1
       (onClose 2 [(1, alice); (2, bob); (3, carol); (4, bob)]).2).1
    = [Send 4 (Rtc offer_to_bob)].
Proof.
  apply (duplicate_id_shadowing [(1, alice)] [(3, carol)] [] 2 4 bob bob offer_to_bob 1).
  - unfold wf; simpl; repeat constructor; set_solver.
  - reflexivity.
  - reflexivity.
  - repeat constructor; simpl; discriminate.
Defined.

(** X25. The relay forwards and never writes a negotiation frame of its
    own: every [offer], [accept], [reject] or [icecandidate] that it
    sends, after whatever inputs, is a frame that it received, word for
    word. *)
Theorem relay_forwards_only_what_it_received
    (inputs : list Input) (connections : Connections) (s : WebSocket) (m : RtcMessage) :
  Send s (Rtc m) ∈ (steps inputs connections).1 →
  ∃ sender, Frame sender m ∈ inputs.
Proof.
  revert connections.
  induction inputs as [|input rest IH]; intros connections Hin.
  - by apply elem_of_nil in Hin.
  - cbn [steps] in Hin.
    pose proof (step_forwards input connections s m) as Hstep.
    destruct (step input connections) as [t1 c1].
    specialize (IH c1).
    destruct (steps rest c1) as [t2 c2]. cbn [fst] in *.
    apply elem_of_app in Hin as [Hin|Hin].
    + destruct (Hstep Hin) as (sender & -> & _).
      exists sender. apply elem_of_cons. by left.
    + destruct (IH Hin) as (sender & Hsender).
      exists sender. apply elem_of_cons. by right.
Qed.

Lemma relay_forwards_only_what_it_received_witness :
  ∃ sender,
    Frame sender offer_to_bob
    ∈ [Frame 1 (IdentifyMessage alice); Frame 2 (IdentifyMessage bob);
       Frame 1 offer_to_bob].
Proof.
  apply (relay_forwards_only_what_it_received
           [Frame 1 (IdentifyMessage alice); Frame 2 (IdentifyMessage bob);
            Frame 1 offer_to_bob] [] 2 offer_to_bob).
  cbn. set_solver.
Defined.

End RelaySpec.

(** ** More about the client *)

Module ApiFacts.
Import Client ClientFacts Api.

(** *** Rules for [guarantees] *)

Section Rules.
Context {I : WebRTCClient → Prop} {Q : Event → Prop}.

Lemma g_ret {A} (a : A) : guarantees I Q (ret a).
Proof. intros c Hc. split; [done | constructor]. Qed.

Lemma g_throw {A} message : guarantees I Q (@throw A message).
Proof. intros c Hc. split; [done | constructor]. Qed.

Lemma g_get : guarantees I Q get.
Proof. intros c Hc. split; [done | constructor]. Qed.

Lemma g_tell events : Forall Q events → guarantees I Q (tell events).
Proof. intros Hq c Hc. by split. Qed.

Lemma g_await {A} call (outcome : Result A) : Q call → guarantees I Q (await call outcome).
Proof. intros Hq c Hc. split; [done | by repeat constructor]. Qed.

Lemma g_modify f : (∀ c, I c → I (f c)) → guarantees I Q (modify f).
Proof. intros Hf c Hc. split; [by apply Hf | constructor]. Qed.

Lemma g_bind {A B} (m : M A) (k : A → M B) :
  guarantees I Q m → (∀ a, guarantees I Q (k a)) → guarantees I Q (bind m k).
Proof.
  intros Hm Hk c Hc. unfold bind.
  destruct (Hm c Hc) as [Hkeep Hquiet].
  destruct (m c) as [[[a|e] c1] t1]; [|done].
  destruct (Hk a c1 Hkeep) as [Hkeep' Hquiet'].
  destruct (k a c1) as [[r c2] t2]. cbn in *. split; [done|].
  by apply Forall_app.
Qed.

Lemma g_try_catch {A} (m : M A) (handler : Error → M A) :
  guarantees I Q m → (∀ e, guarantees I Q (handler e)) →
  guarantees I Q (try_catch m handler).
Proof.
  intros Hm Hh c Hc. unfold try_catch.
  destruct (Hm c Hc) as [Hkeep Hquiet].
  destruct (m c) as [[[a|e] c1] t1]; [done|].
  destruct (Hh e c1 Hkeep) as [Hkeep' Hquiet'].
  destruct (handler e c1) as [[r c2] t2]. cbn in *. split; [done|].
  by apply Forall_app.
Qed.

Lemma g_detached (m : M unit) :
  (∀ e, Q (UnhandledRejection e)) →
  guarantees I Q m → guarantees I Q (detached m).
Proof.
  intros Hq Hm c Hc. unfold detached.
  destruct (Hm c Hc) as [Hkeep Hquiet].
  destruct (m c) as [[[a|e] c1] t1]; [done|]. cbn in *. split; [done|].
  apply Forall_app. split; [done|]. by repeat constructor.
Qed.

End Rules.

(** *** What negotiating with a peer guarantees

    The methods below write to no field but [#peerConnection]; of the
    effects they have only the call of listeners depends on the state. *)

Section Negotiation.
Context (rtc : RTC.t) (I : WebRTCClient → Prop) (Q : Event → Prop).
Hypothesis HI : ∀ v c, I c → I (set_peerConnection v c).
Hypothesis HQ : ∀ e, isNegotiation e = true → Q e.
Hypothesis HE : ∀ c event,
  I c → Q (Emit event (default [] (listeners c !! eventName event))).

Lemma g_emit event : guarantees I Q (emit event).
Proof. intros c Hc. split; [done|]. repeat constructor. by apply HE. Qed.

Lemma g_updatePeerConnection f : guarantees I Q (updatePeerConnection f).
Proof. apply g_modify. intros c Hc. by apply HI. Qed.

Lemma g_tell_tracks (stream_ : MediaStream) : guarantees I Q (tell (map AddTrack stream_)).
Proof.
  apply g_tell. apply Forall_forall. intros e Hin.
  apply list_elem_of_fmap in Hin as (t & -> & _). by apply HQ.
Qed.

Ltac g_step :=
  lazymatch goal with
  | |- guarantees _ _ (bind _ _) => apply g_bind; [|intros ?]
  | |- guarantees _ _ (try_catch _ _) => apply g_try_catch; [|intros ?]
  | |- guarantees _ _ (detached _) =>
      apply g_detached; [intros ?; by apply HQ |]
  | |- guarantees _ _ (ret _) => apply g_ret
  | |- guarantees _ _ (throw _) => apply g_throw
  | |- guarantees _ _ get => apply g_get
  | |- guarantees _ _ (emit _) => apply g_emit
  | |- guarantees _ _ (updatePeerConnection _) => apply g_updatePeerConnection
  | |- guarantees _ _ (tell (map AddTrack _)) => apply g_tell_tracks
  | |- guarantees _ _ (tell _) => apply g_tell; repeat constructor; by apply HQ
  | |- guarantees _ _ (await _ _) => apply g_await; by apply HQ
  | |- guarantees _ _ (modify (set_peerConnection _)) =>
      apply g_modify; intros ? ?; by apply HI
  | |- guarantees _ _ (match ?x with _ => _ end) => destruct x
  | |- guarantees _ _ (let _ := _ in _) => cbv zeta
  end.

Lemma g_getPeerConnection : guarantees I Q getPeerConnection.
Proof. unfold getPeerConnection. repeat g_step. Qed.

Lemma g_sendToSignalServer message : guarantees I Q (sendToSignalServer message).
Proof. unfold sendToSignalServer. repeat g_step. Qed.

Lemma g_sendToPeer message : guarantees I Q (sendToPeer message).
Proof.
  unfold sendToPeer. apply g_bind; [apply g_getPeerConnection|intros pc].
  repeat g_step.
Qed.

Lemma g_closeConnection : guarantees I Q closeConnection.
Proof. unfold closeConnection. repeat g_step. Qed.

Lemma g_disconnect : guarantees I Q disconnect.
Proof.
  unfold disconnect. apply g_bind; [apply g_sendToPeer|intros _].
  apply g_closeConnection.
Qed.

Lemma g_createPeerConnection peerId : guarantees I Q (createPeerConnection peerId).
Proof. unfold createPeerConnection. repeat g_step. Qed.

Lemma g_tryAddIceCandidate connection_ candidate :
  guarantees I Q (tryAddIceCandidate rtc connection_ candidate).
Proof. unfold tryAddIceCandidate. repeat g_step. Qed.

Lemma g_drainIceCandidates connection_ queue :
  guarantees I Q (drainIceCandidates rtc connection_ queue).
Proof.
  induction queue as [|candidate rest IH]; cbn [drainIceCandidates].
  - apply g_ret.
  - apply g_bind; [apply g_updatePeerConnection|intros _].
    apply g_bind; [apply g_tryAddIceCandidate|intros _]. apply IH.
Qed.

Lemma g_setRemoteDescription answerOrOffer :
  guarantees I Q (setRemoteDescription rtc answerOrOffer).
Proof.
  unfold setRemoteDescription. apply g_bind; [apply g_getPeerConnection|intros pc].
  cbv zeta. destruct (bool_decide _); [apply g_throw|].
  apply g_bind; [g_step|intros _].
  apply g_bind; [apply g_updatePeerConnection|intros _].
  apply g_drainIceCandidates.
Qed.

Lemma g_addIceCandidate candidate : guarantees I Q (addIceCandidate rtc candidate).
Proof.
  unfold addIceCandidate. apply g_bind; [apply g_getPeerConnection|intros pc].
  destruct (bool_decide _); [g_step|].
  destruct (remoteDescription (connection pc));
    [apply g_tryAddIceCandidate | apply g_updatePeerConnection].
Qed.

Lemma g_onIceCandidate peerId candidate :
  guarantees I Q (onIceCandidate peerId candidate).
Proof.
  unfold onIceCandidate. destruct candidate; [|apply g_ret].
  apply g_bind; [apply g_get|intros c]. apply g_sendToSignalServer.
Qed.

Lemma g_invite peerId : guarantees I Q (invite rtc peerId).
Proof.
  unfold invite. apply g_bind; [apply g_createPeerConnection|intros k].
  apply g_bind; [g_step|intros offer_].
  destruct (negb _); [apply g_throw|].
  apply g_bind; [g_step|intros _].
  apply g_bind; [apply g_get|intros c]. apply g_sendToSignalServer.
Qed.

Lemma g_accept offer_ : guarantees I Q (accept rtc offer_).
Proof.
  unfold accept. cbv zeta.
  apply g_bind; [apply g_createPeerConnection|intros k].
  apply g_bind; [apply g_setRemoteDescription|intros _].
  apply g_bind; [unfold deref; repeat g_step|intros k'].
  apply g_bind; [g_step|intros answer].
  destruct (negb _); [apply g_throw|].
  apply g_bind; [g_step|intros _].
  apply g_bind; [apply g_get|intros c].
  apply g_bind; [apply g_sendToSignalServer|intros _].
  apply g_updatePeerConnection.
Qed.

Lemma g_reject offer_ : guarantees I Q (reject offer_).
Proof.
  unfold reject. apply g_bind; [apply g_get|intros c]. apply g_sendToSignalServer.
Qed.

Lemma g_connectToPeer answer : guarantees I Q (connectToPeer rtc answer).
Proof.
  unfold connectToPeer.
  apply g_bind; [apply g_setRemoteDescription|intros _].
  apply g_bind; [apply g_getPeerConnection|intros pc].
  apply g_updatePeerConnection.
Qed.

Lemma g_handlePeerMessage peer_ message :
  guarantees I Q (handlePeerMessage peer_ message).
Proof.
  unfold handlePeerMessage. destruct message; [apply g_emit | apply g_closeConnection].
Qed.

Lemma g_onconnectionstatechange connectionState :
  guarantees I Q (onconnectionstatechange connectionState).
Proof.
  unfold onconnectionstatechange. destruct (_ || _); [apply g_closeConnection | apply g_ret].
Qed.

Lemma g_caught (m : M unit) :
  guarantees I Q m →
  guarantees I Q (try_catch m (fun e => tell [ConsoleWarn (Caught e)])).
Proof.
  intros Hm. apply g_try_catch; [done|]. intros e.
  apply g_tell. repeat constructor. by apply HQ.
Qed.

(** A frame that some peer has sent through the relay. *)
Lemma g_handle_rtc message : guarantees I Q (handleServerMessage rtc (Rtc message)).
Proof.
  unfold handleServerMessage. apply g_caught. destruct message.
  - apply g_ret.
  - apply g_addIceCandidate.
  - apply g_emit.
  - apply g_detached; [intros ?; by apply HQ | apply g_connectToPeer].
  - apply g_closeConnection.
Qed.

Lemma g_handle_ready version_ id_ :
  (∀ v c, I c → I (set_version v c)) →
  (∀ v c, I c → I (set_id v c)) →
  guarantees I Q (handleServerMessage rtc (ReadyMessage version_ id_)).
Proof.
  intros Hversion Hid.
  unfold handleServerMessage. apply g_caught.
  apply g_bind; [apply g_get|intros c].
  destruct (_ && _); [g_step|].
  apply g_bind.
  { destruct (negb _); [|apply g_ret]. apply g_modify. intros ? ?. by apply Hversion. }
  intros _. apply g_bind; [apply g_modify; intros ? ?; by apply Hid|intros _].
  apply g_bind; [apply g_get|intros c']. apply g_sendToSignalServer.
Qed.

Lemma g_handle_peer data :
  (∀ c, I c → I (set_peers (delete (Peer.id data) (peers c)) c)) →
  (∀ c, I c → I (set_peers (<[Peer.id data := data]> (peers c)) c)) →
  guarantees I Q (handleServerMessage rtc (PeerMessage data)).
Proof.
  intros Hdelete Hinsert.
  unfold handleServerMessage. apply g_caught.
  destruct (bool_decide _).
  - apply g_bind; [by apply g_modify|intros _]. apply g_emit.
  - apply g_bind; [apply g_get|intros c].
    apply g_bind; [by apply g_modify|intros _]. apply g_emit.
Qed.

End Negotiation.

(** *** The two halves of the client

    Negotiation writes to [#peerConnection] only; everything else the
    client does leaves [#peerConnection] alone. *)

Lemma only_peerConnection_differs (c c' : WebRTCClient) :
  set_peerConnection None c' = set_peerConnection None c →
  c' = set_peerConnection (peerConnection c') c.
Proof. destruct c, c'. cbn. intros [=]. by subst. Qed.

Lemma negotiation_frame (rtc : RTC.t) (stimulus : Stimulus) (c : WebRTCClient) :
  negotiates stimulus = true →
  (react rtc stimulus c).1.2
  = set_peerConnection (peerConnection (react rtc stimulus c).1.2) c.
Proof.
  intros Hneg. apply only_peerConnection_differs.
  pose (I := fun c' => set_peerConnection None c' = set_peerConnection None c).
  assert (guarantees I anyEvent (react rtc stimulus)) as Hg.
  { assert (∀ v c', I c' → I (set_peerConnection v c')) as HI by (intros v c' Hc'; exact Hc').
    assert (∀ e, isNegotiation e = true → anyEvent e) as HQ by done.
    assert (∀ c' event, I c' →
              anyEvent (Emit event (default [] (listeners c' !! eventName event))))
      as HE by done.
    destruct stimulus as [| | | | | | | | |[|[]| |]| | |]; try done; cbn [react deliver].
    - by apply g_invite.
    - by apply g_accept.
    - by apply g_reject.
    - by apply g_disconnect.
    - by apply g_sendToPeer.
    - by apply g_handle_rtc.
    - by apply g_handlePeerMessage.
    - by apply g_onconnectionstatechange.
    - by apply g_onIceCandidate. }
  by destruct (Hg c eq_refl).
Qed.

Lemma Forall_anyEvent (events : list Event) : Forall anyEvent events.
Proof. by apply Forall_forall. Qed.

Ltac head_of t :=
  lazymatch t with
  | ?f _ => head_of f
  | _ => t
  end.

(** One step through the body of a method, for a property of the state
    alone; [solve_modify] shows that a write keeps the property. *)
Ltac keep_step solve_modify :=
  lazymatch goal with
  | |- guarantees _ _ (bind _ _) => apply g_bind; [|intros ?]
  | |- guarantees _ _ (try_catch _ _) => apply g_try_catch; [|intros ?]
  | |- guarantees _ _ (detached _) => apply g_detached; [done|]
  | |- guarantees _ _ (ret _) => apply g_ret
  | |- guarantees _ _ (throw _) => apply g_throw
  | |- guarantees _ _ get => apply g_get
  | |- guarantees _ _ (tell _) => apply g_tell; apply Forall_anyEvent
  | |- guarantees _ _ (await _ _) => apply g_await; done
  | |- guarantees _ _ (modify _) => apply g_modify; solve_modify
  | |- guarantees _ _ (match ?x with _ => _ end) =>
      first [is_var x; destruct x | progress cbv beta iota | destruct x]
  | |- guarantees _ _ (let _ := _ in _) => cbv zeta
  | |- guarantees _ _ ?m => let h := head_of m in progress unfold h
  end.

Ltac by_conversion := let H := fresh in intros ? H; exact H.

Lemma housekeeping_frame (rtc : RTC.t) (stimulus : Stimulus) (c : WebRTCClient) :
  negotiates stimulus = false →
  peerConnection (react rtc stimulus c).1.2 = peerConnection c.
Proof.
  intros Hneg.
  pose (I := fun c' => peerConnection c' = peerConnection c).
  assert (guarantees I anyEvent (react rtc stimulus)) as Hg.
  { destruct stimulus as [| | | | | | | | |[|[]| |]| | |]; try done;
      cbn [react deliver]; repeat keep_step by_conversion. }
  by destruct (Hg c eq_refl).
Qed.

(** *** Known peers *)

Lemma peersKeyed_insert (c : WebRTCClient) (data : Peer.t) :
  peersKeyed c → peersKeyed (set_peers (<[Peer.id data := data]> (peers c)) c).
Proof.
  intros Hkeyed key p. cbn.
  destruct (decide (Peer.id data = key)) as [<-|Hne].
  - rewrite lookup_insert_eq. by intros [= <-].
  - rewrite lookup_insert_ne by done. apply Hkeyed.
Qed.

Lemma peersKeyed_delete (c : WebRTCClient) (key : string) :
  peersKeyed c → peersKeyed (set_peers (delete key (peers c)) c).
Proof.
  intros Hkeyed key' p. cbn.
  destruct (decide (key = key')) as [<-|Hne].
  - by rewrite lookup_delete_eq.
  - rewrite lookup_delete_ne by done. apply Hkeyed.
Qed.

Lemma peersKeyed_empty (c : WebRTCClient) : peersKeyed (set_peers ∅ c).
Proof. intros key p. cbn. by rewrite lookup_empty. Qed.

Lemma peersKeyed_react (rtc : RTC.t) (stimulus : Stimulus) (c : WebRTCClient) :
  peersKeyed c → peersKeyed (react rtc stimulus c).1.2.
Proof.
  intros Hkeyed.
  destruct (negotiates stimulus) eqn:Hneg.
  { rewrite negotiation_frame by done. exact Hkeyed. }
  assert (guarantees peersKeyed anyEvent (react rtc stimulus)) as Hg.
  { destruct stimulus as [| | | | | | | | |[|[]| |]| | |]; try done;
      cbn [react deliver];
      repeat keep_step
        ltac:(first [ by_conversion
                    | intros ? ?; by apply peersKeyed_insert
                    | intros ? ?; by apply peersKeyed_delete
                    | intros ? ?; by apply peersKeyed_empty ]). }
  by destruct (Hg c Hkeyed).
Qed.

(** *** The reconnect timeout *)

Lemma oneTimer_filter (c : WebRTCClient) (P : nat * nat → Prop)
    `{∀ t, Decision (P t)} :
  oneTimer c → oneTimer (set_timers (filter P (timers c)) c).
Proof.
  intros [Howned Hlen]. split.
  - intros timer Hin. cbn in *. apply Howned.
    apply list_elem_of_fmap in Hin as (x & -> & Hx).
    apply list_elem_of_filter in Hx as [_ Hx].
    apply list_elem_of_fmap. by exists x.
  - cbn. pose proof (length_filter P (timers c)). lia.
Qed.

Lemma g_state {A} (I : WebRTCClient → Prop) (Q : Event → Prop) (m : M A) c :
  guarantees I Q m → I c → I (m c).1.2.
Proof. intros Hg Hc. by destruct (Hg c Hc). Qed.

Lemma oneTimer_react (rtc : RTC.t) (stimulus : Stimulus) (c : WebRTCClient) :
  oneTimer c → oneTimer (react rtc stimulus c).1.2.
Proof.
  intros Hone.
  destruct (negotiates stimulus) eqn:Hneg.
  { rewrite negotiation_frame by done. exact Hone. }
  destruct stimulus as [| | | | | | | | |[|[]| |]| | |]; try discriminate Hneg;
    cbn [react deliver].
  all: try solve
    [ apply (g_state oneTimer anyEvent); [|done];
      repeat keep_step
        ltac:(first [ by_conversion
                    | intros ? ?;
                      match goal with
                      | H : oneTimer _ |- _ => exact (oneTimer_filter _ _ H)
                      end ]) ].
  destruct Hone as [Howned Hlen].
  destruct (closed c) eqn:Hclosed;
    [rewrite socket_onclose_idle by (by left); by split|].
  destruct (stream c) eqn:Hstream;
    [|rewrite socket_onclose_idle by (by right); by split].
  rewrite socket_onclose_schedules by (try done; by rewrite Hstream).
  split; [|cbn; lia].
  intros timer Hin. cbn in *. apply list_elem_of_singleton in Hin. by subst.
Qed.

Lemma after_invariant (rtc : RTC.t) (I : WebRTCClient → Prop) :
  (∀ stimulus c, I c → I (react rtc stimulus c).1.2) →
  ∀ stimuli c, I c → I (after rtc stimuli c).1.
Proof.
  intros Hreact stimuli.
  induction stimuli as [|stimulus rest IH]; intros c Hc; [done|].
  cbn [after]. specialize (Hreact stimulus c Hc).
  destruct (react rtc stimulus c) as [[r c1] t1]. cbn in Hreact.
  specialize (IH c1 Hreact).
  by destruct (after rtc rest c1) as [c2 t2].
Qed.

(** *** The candidate queue and the remote description *)

Lemma setRemoteDescription_accepted (rtc : RTC.t) (c : WebRTCClient)
    (pc : PeerConnection) (answerOrOffer : Description.t) :
  peerConnection c = Some pc →
  Description.source answerOrOffer = Peer.id (peer pc) →
  RTC.setRemoteDescription rtc (connection pc) answerOrOffer = None →
  let connection_ := set_remoteDescription (Some answerOrOffer) (connection pc) in
  setRemoteDescription rtc answerOrOffer c
  = (Return tt,
     set_peerConnection
       (Some (set_iceCandidates [] (set_connection connection_ pc))) c,
     SetRemoteDescription answerOrOffer
       :: drained rtc connection_ (iceCandidates pc)).
Proof.
  intros Hpc Hsource Haccepted connection_.
  unfold setRemoteDescription, getPeerConnection, bind, get.
  rewrite Hpc. cbn [ret].
  rewrite bool_decide_false by (intros []; done).
  unfold await, settled. rewrite Haccepted.
  unfold updatePeerConnection, modify. rewrite Hpc.
  cbn [fmap option_fmap option_map]. fold connection_.
  rewrite (drainIceCandidates_spec rtc connection_ (iceCandidates pc) _
             (set_connection connection_ pc)) by done.
  reflexivity.
Qed.

Lemma setRemoteDescription_refused (rtc : RTC.t) (c : WebRTCClient)
    (pc : PeerConnection) (answerOrOffer : Description.t) (e : Error) :
  peerConnection c = Some pc →
  Description.source answerOrOffer = Peer.id (peer pc) →
  RTC.setRemoteDescription rtc (connection pc) answerOrOffer = Some e →
  setRemoteDescription rtc answerOrOffer c
  = (Throw e, c, [SetRemoteDescription answerOrOffer]).
Proof.
  intros Hpc Hsource Hrefused.
  unfold setRemoteDescription, getPeerConnection, bind, get.
  rewrite Hpc. cbn [ret].
  rewrite bool_decide_false by (intros []; done).
  unfold await, settled. by rewrite Hrefused.
Qed.

Lemma setRemoteDescription_mismatch (rtc : RTC.t) (c : WebRTCClient)
    (pc : PeerConnection) (answerOrOffer : Description.t) :
  peerConnection c = Some pc →
  Description.source answerOrOffer ≠ Peer.id (peer pc) →
  setRemoteDescription rtc answerOrOffer c
  = (Throw (mkError "Answer or offer doesn't match pending peer connection"), c, []).
Proof.
  intros Hpc Hsource.
  unfold setRemoteDescription, getPeerConnection, bind, get.
  rewrite Hpc. cbn [ret]. by rewrite bool_decide_true by (intros ?; done).
Qed.

Lemma setRemoteDescription_no_session (rtc : RTC.t) (c : WebRTCClient)
    (answerOrOffer : Description.t) :
  peerConnection c = None →
  setRemoteDescription rtc answerOrOffer c
  = (Throw (mkError "No peer connection"), c, []).
Proof.
  intros Hpc. unfold setRemoteDescription, getPeerConnection, bind, get.
  by rewrite Hpc.
Qed.

(** *** Steps of a negotiation that goes well *)

Lemma createPeerConnection_ok (c : WebRTCClient) (peerId : string)
    (stream_ : MediaStream) (peer_ : Peer.t) :
  stream c = Some stream_ →
  peerConnection c = None →
  peers c !! peerId = Some peer_ →
  let fresh := {| remoteDescription := None; onicecandidate := None |} in
  createPeerConnection peerId c
  = (Return fresh,
     set_peerConnection
       (Some {| peer := peer_; connection := fresh;
                channel := {| readyState := connecting |};
                iceCandidates := [] |}) c,
     [NewRTCPeerConnection; CreateDataChannel] ++ map AddTrack stream_).
Proof.
  intros Hstream Hnone Hpeer fresh.
  unfold createPeerConnection, bind, get.
  rewrite Hstream, Hnone, Hpeer. cbn. by rewrite app_nil_r.
Qed.


Lemma closeConnection_with_session (c : WebRTCClient) (pc : PeerConnection) :
  peerConnection c = Some pc →
  closeConnection c
  = (Return tt, set_peerConnection None c,
     [ChannelClose; ConnectionClose;
      Emit (peerdisconnected (Peer.id (peer pc)))
           (default [] (listeners c !! "peerdisconnected"))]).
Proof.
  intros Hpc. unfold closeConnection, bind, get. rewrite Hpc. reflexivity.
Qed.

Lemma closeConnection_without_session (c : WebRTCClient) :
  peerConnection c = None → closeConnection c = (Return tt, c, []).
Proof.
  intros Hpc. unfold closeConnection, bind, get. by rewrite Hpc.
Qed.

Lemma accept_ok (rtc : RTC.t) (c : WebRTCClient) (offer_ : Offer)
    (stream_ : MediaStream) (peer_ : Peer.t) (s : WebSocket)
    (answer : SessionDescriptionInit) :
  let fresh := {| remoteDescription := None; onicecandidate := None |} in
  let described := {| remoteDescription := Some offer_; onicecandidate := None |} in
  stream c = Some stream_ →
  peerConnection c = None →
  peers c !! Description.source offer_ = Some peer_ →
  Peer.id peer_ = Description.source offer_ →
  socket c = Some s →
  RTC.setRemoteDescription rtc fresh offer_ = None →
  RTC.createAnswer rtc described = Return answer →
  truthy (sd_sdp answer) = true →
  RTC.setLocalDescription rtc described answer = None →
  accept rtc offer_ c
  = (Return tt,
     set_peerConnection
       (Some {| peer := peer_;
                connection :=
                  {| remoteDescription := Some offer_;
                     onicecandidate := Some (Description.source offer_) |};
                channel := {| readyState := connecting |};
                iceCandidates := [] |}) c,
     [NewRTCPeerConnection; CreateDataChannel]
       ++ map AddTrack stream_
       ++ [SetRemoteDescription offer_; CreateAnswer; SetLocalDescription answer;
           SocketSend s (AcceptMessage
                           {| Description.type := sd_type answer;
                              Description.sdp := sd_sdp answer;
                              Description.source := id c;
                              Description.target := Description.source offer_ |})]).
Proof.
  intros fresh described Hstream Hnone Hpeer Hid Hsocket Hremote Hanswer Hsdp Hlocal.
  unfold accept. cbv zeta. unfold bind at 1.
  rewrite (createPeerConnection_ok c _ stream_ peer_) by done.
  fold fresh. unfold bind at 1.
  rewrite (setRemoteDescription_accepted rtc _
             {| peer := peer_; connection := fresh;
                channel := {| readyState := connecting |}; iceCandidates := [] |})
    by done.
  unfold deref, sendToSignalServer, updatePeerConnection, await, bind, get, modify, ret.
  cbn. change (set_remoteDescription (Some offer_) fresh) with described.
  rewrite Hanswer, Hsdp. cbn. rewrite Hlocal. cbn.
  rewrite Hsocket. cbn. rewrite ?app_nil_r, <- ?app_assoc. reflexivity.
Qed.

Lemma ready_ok (rtc : RTC.t) (c : WebRTCClient) (version_ id_ : string) (s : WebSocket) :
  version c = version_ ∨ version c = EmptyString →
  socket c = Some s →
  handleServerMessage rtc (ReadyMessage version_ id_) c
  = (Return tt,
     set_id id_ (set_version version_ c),
     [SocketSend s (IdentifyMessage
                      {| Peer.id := id_; Peer.name := name c; Peer.remove := None |})]).
Proof.
  intros Hversion Hs.
  unfold handleServerMessage, try_catch, bind, get. cbn [truthy].
  destruct (decide (version c = EmptyString)) as [Hempty|Hcached].
  - rewrite (bool_decide_true (version c = EmptyString)) by done.
    cbn. by rewrite Hs.
  - destruct Hversion as [Hsame|]; [|done].
    rewrite (bool_decide_false (version c = EmptyString)) by done.
    rewrite (bool_decide_false (version c ≠ version_)) by (intros []; done).
    cbn. rewrite Hs. repeat f_equal. destruct c; cbn in *. by subst.
Qed.


(** *** The client files what the relay announces *)

Lemma peers_after_frame (rtc : RTC.t) (message : ServerMessage) (c : WebRTCClient) :
  peers (handleServerMessage rtc message c).1.2 = Relay.learn (peers c) message.
Proof.
  destruct message as [msg|data|version_ id_].
  - change (handleServerMessage rtc (Rtc msg))
      with (react rtc (Browser (SocketDelivers (Rtc msg)))).
    by rewrite negotiation_frame.
  - unfold handleServerMessage, try_catch, emit, bind, get, modify, tell. cbn.
    by destruct (bool_decide (Peer.remove data = Some true)).
  - apply (g_state (fun c' => peers c' = peers c) anyEvent); [|done].
    repeat keep_step by_conversion.
Qed.

Lemma peers_after_frames (rtc : RTC.t) (messages : list ServerMessage) :
  ∀ c, peers (after rtc (MoreExamples.delivered messages) c).1
       = foldl Relay.learn (peers c) messages.
Proof.
  induction messages as [|message rest IH]; intros c; [done|].
  cbn [MoreExamples.delivered map after react deliver foldl].
  unfold socket_onmessage.
  pose proof (peers_after_frame rtc message c) as Hstep.
  destruct (handleServerMessage rtc message c) as [[r c1] t1]. cbn in Hstep.
  specialize (IH c1). fold (MoreExamples.delivered rest).
  destruct (after rtc (MoreExamples.delivered rest) c1) as [c2 t2]. cbn in *.
  congruence.
Qed.

Lemma tally_inj : Inj (=) (=) MoreExamples.tally.
Proof.
  intros n. induction n as [|n IH]; intros [|m] Heq; cbn in Heq; try done.
  injection Heq as Heq. f_equal. by apply IH.
Qed.

(** *** Reading a normal return backwards *)

Lemma createPeerConnection_cases (c : WebRTCClient) (peerId : string) :
  (∃ e, createPeerConnection peerId c = (Throw e, c, []))
  ∨ (∃ stream_ peer_,
       stream c = Some stream_ ∧ peerConnection c = None
       ∧ peers c !! peerId = Some peer_).
Proof.
  unfold createPeerConnection, bind, get.
  destruct (stream c) as [stream_|]; [|left; by eexists].
  destruct (peerConnection c); [left; by eexists|].
  destruct (peers c !! peerId) as [peer_|]; [|left; by eexists].
  right. by exists stream_, peer_.
Qed.

End ApiFacts.

Module ApiSpec.
Import Client ClientFacts Api ApiFacts Examples MoreExamples.

(** X7. The client has two halves. Inviting, accepting, rejecting,
    chatting, hanging up, the frames a peer sends through the relay and
    the events of a peer connection change no field but
    [#peerConnection]: known peers, listeners, name, id, cached version,
    socket, stream and timers are as before. Everything else (the name
    setter, [on], [closeStream], [close], the socket events, the
    [ready] and [peer] frames, the reconnect timeout) leaves
    [#peerConnection] as it is. *)
Theorem negotiation_and_housekeeping
    (rtc : RTC.t) (stimulus : Stimulus) (c : WebRTCClient) :
  let c' := (react rtc stimulus c).1.2 in
  (negotiates stimulus = true → c' = set_peerConnection (peerConnection c') c)
  ∧ (negotiates stimulus = false → peerConnection c' = peerConnection c).
Proof.
  intros c'. subst c'. split; intros Hneg.
  - by apply negotiation_frame.
  - by apply housekeeping_frame.
Qed.

Lemma negotiation_and_housekeeping_witness :
  (react rtc0 (Invite "b1") alice_idle).1.2
  = set_peerConnection (peerConnection (react rtc0 (Invite "b1") alice_idle).1.2)
                       alice_idle
  ∧ peerConnection (react rtc0 Close alice_offering).1.2
    = peerConnection alice_offering.
Proof.
  split.
  - exact (proj1 (negotiation_and_housekeeping rtc0 (Invite "b1") alice_idle) eq_refl).
  - exact (proj2 (negotiation_and_housekeeping rtc0 Close alice_offering) eq_refl).
Defined.

(** X8. Every peer the client knows is filed under its own id, and stays
    so whatever is called and whatever arrives: [getPeer(id)] never
    answers with the record of another id. *)
Theorem known_peers_filed_by_id
    (rtc : RTC.t) (stimuli : list Stimulus) (c : WebRTCClient) :
  peersKeyed c →
  ∀ peerId p, getPeer peerId (after rtc stimuli c).1 = Some p → Peer.id p = peerId.
Proof.
  intros Hkeyed.
  apply (after_invariant rtc peersKeyed (peersKeyed_react rtc) stimuli c Hkeyed).
Qed.

Lemma known_peers_filed_by_id_witness :
  peersKeyed (constructor None 0)
  ∧ Peer.id (Peer.mk "b1" "Robert" None) = "b1".
Proof.
  assert (peersKeyed (constructor None 0)) as Hkeyed.
  { intros key p Hp. cbn in Hp. by rewrite lookup_empty in Hp. }
  split; [exact Hkeyed|].
  exact (known_peers_filed_by_id rtc0
           [Browser (SocketDelivers (PeerMessage bob));
            Browser (SocketDelivers (PeerMessage (Peer.mk "c1" "Carol" (Some true))));
            Browser (SocketDelivers (PeerMessage (Peer.mk "b1" "Robert" None)))]
           (constructor None 0) Hkeyed "b1" (Peer.mk "b1" "Robert" None) eq_refl).
Defined.

(** X9. At most one reconnect timeout is pending, and it is the one
    [#reconnectTimer] refers to, so that [clearTimeout] cancels all
    there is: if this holds of a client, as it does of one with no
    timeout pending, it holds after every sequence of calls and
    events. *)
Theorem at_most_one_reconnect_timeout
    (rtc : RTC.t) (stimuli : list Stimulus) (c : WebRTCClient) :
  oneTimer c →
  (length (timers (after rtc stimuli c).1) ≤ 1)%nat
  ∧ (∀ timer, timer ∈ (timers (after rtc stimuli c).1).*1 →
        reconnectTimer (after rtc stimuli c).1 = Some timer).
Proof.
  intros Hone.
  destruct (after_invariant rtc oneTimer (oneTimer_react rtc) stimuli c Hone)
    as [Howned Hlen].
  by split.
Qed.

Lemma at_most_one_reconnect_timeout_witness :
  (length (timers (after rtc0 [Browser SocketCloses; Browser SocketCloses;
                               Browser (TimeoutElapses 9)] alice_idle).1) ≤ 1)%nat.
Proof.
  refine (proj1 (at_most_one_reconnect_timeout rtc0 _ alice_idle _)).
  split; [|cbn; lia]. intros timer Hin. by apply elem_of_nil in Hin.
Defined.

(** X11. [accept(offer)] from a client with an open stream and no peer
    connection, for an offer whose source is a known peer filed under
    its id, with the relay socket connected and a transport that takes
    the offer, generates an answer with a non-empty sdp and takes it as
    local description: the transport and channel are created and the
    tracks attached, then the offer is set as remote description, then
    [createAnswer] and [setLocalDescription] are called, then one
    [accept] with source the client's own id and target the offerer is
    sent; the peer connection ends with the remote description set, an
    empty queue and the [onicecandidate] handler installed. *)
Theorem accept_known_offer (rtc : RTC.t) (c : WebRTCClient) (offer_ : Offer)
    (stream_ : MediaStream) (peer_ : Peer.t) (s : WebSocket)
    (answer : SessionDescriptionInit) :
  let fresh := {| remoteDescription := None; onicecandidate := None |} in
  let described := {| remoteDescription := Some offer_; onicecandidate := None |} in
  stream c = Some stream_ →
  peerConnection c = None →
  peers c !! Description.source offer_ = Some peer_ →
  Peer.id peer_ = Description.source offer_ →
  socket c = Some s →
  RTC.setRemoteDescription rtc fresh offer_ = None →
  RTC.createAnswer rtc described = Return answer →
  truthy (sd_sdp answer) = true →
  RTC.setLocalDescription rtc described answer = None →
  accept rtc offer_ c
  = (Return tt,
     set_peerConnection
       (Some {| peer := peer_;
                connection :=
                  {| remoteDescription := Some offer_;
                     onicecandidate := Some (Description.source offer_) |};
                channel := {| readyState := connecting |};
                iceCandidates := [] |}) c,
     [NewRTCPeerConnection; CreateDataChannel]
       ++ map AddTrack stream_
       ++ [SetRemoteDescription offer_; CreateAnswer; SetLocalDescription answer;
           SocketSend s (AcceptMessage
                           {| Description.type := sd_type answer;
                              Description.sdp := sd_sdp answer;
                              Description.source := id c;
                              Description.target := Description.source offer_ |})]).
Proof. apply accept_ok. Qed.

Lemma accept_known_offer_witness :
  accept rtc0 (Description.mk "offer" (Some "v=0 o") "b1" "a1") alice_idle
  = (Return tt,
     set_peerConnection
       (Some {| peer := bob;
                connection :=
                  {| remoteDescription :=
                       Some (Description.mk "offer" (Some "v=0 o") "b1" "a1");
                     onicecandidate := Some "b1" |};
                channel := {| readyState := connecting |};
                iceCandidates := [] |}) alice_idle,
     [NewRTCPeerConnection; CreateDataChannel; AddTrack "audio"; AddTrack "video";
      SetRemoteDescription (Description.mk "offer" (Some "v=0 o") "b1" "a1");
      CreateAnswer; SetLocalDescription {| sd_type := "answer"; sd_sdp := Some "v=0 a" |};
      SocketSend 7 (AcceptMessage (Description.mk "answer" (Some "v=0 a") "a1" "b1"))]).
Proof.
  exact (accept_known_offer rtc0 alice_idle
           (Description.mk "offer" (Some "v=0 o") "b1" "a1")
           ["audio"; "video"] bob 7 {| sd_type := "answer"; sd_sdp := Some "v=0 a" |}
           eq_refl eq_refl eq_refl eq_refl eq_refl eq_refl eq_refl eq_refl eq_refl).
Defined.

(** X12. An [invite] that gets past its three guards (stream open, no
    peer connection, known peer) is not rolled back when a later step
    fails (no offer, an offer without sdp, a refused local description,
    no relay socket): whatever the outcome, the new peer connection
    stays, with the tracks attached, and every further [invite] throws
    "Client already has an active peer connection" until the
    connection is closed. *)
Theorem failed_invite_keeps_the_session (rtc : RTC.t) (c : WebRTCClient)
    (peerId : string) (stream_ : MediaStream) (peer_ : Peer.t) :
  stream c = Some stream_ →
  peerConnection c = None →
  peers c !! peerId = Some peer_ →
  let c' :=
    set_peerConnection
      (Some {| peer := peer_;
               connection := {| remoteDescription := None; onicecandidate := None |};
               channel := {| readyState := connecting |};
               iceCandidates := [] |}) c in
  (∃ outcome rest,
      invite rtc peerId c
      = (outcome, c',
         [NewRTCPeerConnection; CreateDataChannel] ++ map AddTrack stream_ ++ rest))
  ∧ (∀ offer_,
       socket c = None →
       RTC.createOffer rtc {| remoteDescription := None; onicecandidate := None |}
       = Return offer_ →
       truthy (sd_sdp offer_) = true →
       RTC.setLocalDescription rtc
         {| remoteDescription := None; onicecandidate := None |} offer_ = None →
       invite rtc peerId c
       = (Throw (mkError "Client is not connected"), c',
          [NewRTCPeerConnection; CreateDataChannel]
            ++ map AddTrack stream_ ++ [CreateOffer; SetLocalDescription offer_]))
  ∧ (∀ peerId',
       invite rtc peerId' c'
       = (Throw (mkError "Client already has an active peer connection"), c', [])).
Proof.
  intros Hstream Hnone Hpeer c'. repeat split.
  - unfold invite. unfold bind at 1.
    rewrite (createPeerConnection_ok c peerId stream_ peer_) by done.
    fold c'. unfold sendToSignalServer, await, settled, bind, get.
    destruct (RTC.createOffer rtc _) as [offer_|e]; cbn.
    + destruct (truthy (sd_sdp offer_)); cbn.
      * destruct (RTC.setLocalDescription rtc _ offer_); cbn.
        -- eexists _, _. rewrite <- ?app_assoc. reflexivity.
        -- destruct (socket c); cbn; eexists _, _; rewrite <- ?app_assoc; reflexivity.
      * eexists _, _. rewrite <- ?app_assoc. reflexivity.
    + eexists _, _. rewrite <- ?app_assoc. reflexivity.
  - intros offer_ Hsocket Hoffer Hsdp Hlocal.
    unfold invite. unfold bind at 1.
    rewrite (createPeerConnection_ok c peerId stream_ peer_) by done.
    fold c'. unfold sendToSignalServer, await, settled, bind, get.
    rewrite Hoffer, Hsdp. cbn. rewrite Hlocal. cbn. rewrite Hsocket. cbn.
    by rewrite ?app_nil_r, <- ?app_assoc.
  - intros peerId'. unfold invite, createPeerConnection, bind, get.
    cbn. by rewrite Hstream.
Qed.

Lemma failed_invite_keeps_the_session_witness :
  invite rtc0 "b1" (set_socket None alice_idle)
  = (Throw (mkError "Client is not connected"),
     set_peerConnection (Some (session_with_bob [])) (set_socket None alice_idle),
     [NewRTCPeerConnection; CreateDataChannel; AddTrack "audio"; AddTrack "video";
      CreateOffer; SetLocalDescription {| sd_type := "offer"; sd_sdp := Some "v=0 o" |}]).
Proof.
  exact (proj1 (proj2 (failed_invite_keeps_the_session rtc0 (set_socket None alice_idle)
                         "b1" ["audio"; "video"] bob eq_refl eq_refl eq_refl))
               {| sd_type := "offer"; sd_sdp := Some "v=0 o" |}
               eq_refl eq_refl eq_refl eq_refl).
Defined.

(** X13. [disconnect()] with a peer connection always ends without one:
    the [disconnect] message goes to the peer only if the data channel
    is open, otherwise a warning is logged instead; in both cases the
    channel and the transport are closed, [#peerConnection] is cleared
    and [peerdisconnected] is emitted with the peer's id. *)
Theorem disconnect_with_session (c : WebRTCClient) (pc : PeerConnection) :
  peerConnection c = Some pc →
  disconnect c
  = (Return tt, set_peerConnection None c,
     (match readyState (channel pc) with
      | open => ChannelSend DisconnectMessage
      | _ => ConsoleWarn (ChannelNotReady (Peer.id (peer pc)))
      end)
       :: [ChannelClose; ConnectionClose;
           Emit (peerdisconnected (Peer.id (peer pc)))
                (default [] (listeners c !! "peerdisconnected"))]).
Proof.
  intros Hpc.
  unfold disconnect. unfold bind at 1.
  assert (sendToPeer DisconnectMessage c
          = (Return tt, c,
             [match readyState (channel pc) with
              | open => ChannelSend DisconnectMessage
              | _ => ConsoleWarn (ChannelNotReady (Peer.id (peer pc)))
              end])) as ->.
  { unfold sendToPeer, getPeerConnection, bind, get. rewrite Hpc. cbn.
    by destruct (readyState (channel pc)). }
  by rewrite (closeConnection_with_session c pc).
Qed.

Lemma disconnect_with_session_witness :
  disconnect alice_offering
  = (Return tt, alice_idle,
     [ConsoleWarn (ChannelNotReady "b1"); ChannelClose; ConnectionClose;
      Emit (peerdisconnected "b1") [0]]).
Proof.
  exact (disconnect_with_session alice_offering (session_with_bob []) eq_refl).
Defined.

(** X14. The ways a peer connection ends agree. A [disconnect] message
    from the peer, the connection states [disconnected] and [failed],
    and a [reject] frame all do exactly what [#closeConnection] does;
    any other connection state does nothing; and once the connection is
    gone every one of these triggers is a no-op, so [peerdisconnected]
    is emitted once however many of them arrive. *)
Theorem teardown_triggers_agree (rtc : RTC.t) (c : WebRTCClient)
    (peer_ : Peer.t) (data : Reject.t) :
  handlePeerMessage peer_ DisconnectMessage c = closeConnection c
  ∧ onconnectionstatechange "disconnected" c = closeConnection c
  ∧ onconnectionstatechange "failed" c = closeConnection c
  ∧ handleServerMessage rtc (Rtc (RejectMessage data)) c = closeConnection c
  ∧ (∀ connectionState,
       connectionState ≠ "disconnected" → connectionState ≠ "failed" →
       onconnectionstatechange connectionState c = (Return tt, c, []))
  ∧ closeConnection (closeConnection c).1.2
    = (Return tt, (closeConnection c).1.2, []).
Proof.
  repeat split.
  - destruct (peerConnection c) as [pc|] eqn:Hpc.
    + unfold handleServerMessage, try_catch.
      by rewrite (closeConnection_with_session c pc).
    + unfold handleServerMessage, try_catch.
      by rewrite closeConnection_without_session.
  - intros connectionState Hd Hf. unfold onconnectionstatechange.
    by rewrite !bool_decide_false.
  - destruct (peerConnection c) as [pc|] eqn:Hpc.
    + rewrite (closeConnection_with_session c pc) by done. cbn [fst snd].
      by apply closeConnection_without_session.
    + rewrite (closeConnection_without_session c) by done. cbn [fst snd].
      by apply closeConnection_without_session.
Qed.

Lemma teardown_triggers_agree_witness :
  onconnectionstatechange "closed" alice_offering = (Return tt, alice_offering, [])
  ∧ onconnectionstatechange "failed" alice_offering = closeConnection alice_offering.
Proof.
  split.
  - apply (proj1 (proj2 (proj2 (proj2 (proj2
             (teardown_triggers_agree rtc0 alice_offering bob
                {| Reject.source := "b1"; Reject.target := "a1" |}))))));
      discriminate.
  - exact (proj1 (proj2 (proj2
             (teardown_triggers_agree rtc0 alice_offering bob
                {| Reject.source := "b1"; Reject.target := "a1" |})))).
Defined.

(** X15. [peer] frames and the set of known peers. A frame with
    [remove: true] forgets the id and emits [peerremoved], also when the
    id was not known. Any other frame files the record under its id and
    emits [peerupdated] if the id was known and [peeradded] if not. No
    other peer is touched, and neither is the peer connection, even when
    the removed peer is the connected one. A peer that was not known is
    forgotten without a trace when it is announced and then removed. *)
Theorem peer_frames_maintain_known_peers (rtc : RTC.t) (c : WebRTCClient)
    (data : Peer.t) :
  let handlers name_ := default [] (listeners c !! name_) in
  (Peer.remove data = Some true →
     handleServerMessage rtc (PeerMessage data) c
     = (Return tt, set_peers (delete (Peer.id data) (peers c)) c,
        [Emit (peerremoved data) (handlers "peerremoved")]))
  ∧ (Peer.remove data ≠ Some true →
     handleServerMessage rtc (PeerMessage data) c
     = (Return tt, set_peers (<[Peer.id data := data]> (peers c)) c,
        [if bool_decide (is_Some (peers c !! Peer.id data))
         then Emit (peerupdated data) (handlers "peerupdated")
         else Emit (peeradded data) (handlers "peeradded")]))
  ∧ (∀ peerId,
       getPeer peerId (handleServerMessage rtc (PeerMessage data) c).1.2
       = if decide (peerId = Peer.id data)
         then (if bool_decide (Peer.remove data = Some true) then None else Some data)
         else getPeer peerId c)
  ∧ (∀ gone,
       Peer.remove data ≠ Some true → Peer.remove gone = Some true →
       Peer.id gone = Peer.id data → peers c !! Peer.id data = None →
       (handleServerMessage rtc (PeerMessage gone)
          (handleServerMessage rtc (PeerMessage data) c).1.2).1.2 = c).
Proof.
  intros handlers.
  assert (Peer.remove data = Some true →
          handleServerMessage rtc (PeerMessage data) c
          = (Return tt, set_peers (delete (Peer.id data) (peers c)) c,
             [Emit (peerremoved data) (handlers "peerremoved")])) as Hremove.
  { intros Hr. unfold handleServerMessage, try_catch, emit, bind, get, modify, tell.
    by rewrite bool_decide_true. }
  assert (Peer.remove data ≠ Some true →
          handleServerMessage rtc (PeerMessage data) c
          = (Return tt, set_peers (<[Peer.id data := data]> (peers c)) c,
             [if bool_decide (is_Some (peers c !! Peer.id data))
              then Emit (peerupdated data) (handlers "peerupdated")
              else Emit (peeradded data) (handlers "peeradded")])) as Hadd.
  { intros Hr. unfold handleServerMessage, try_catch, emit, bind, get, modify, tell.
    rewrite bool_decide_false by done. cbn.
    by destruct (bool_decide (is_Some (peers c !! Peer.id data))). }
  repeat split; try done.
  - intros peerId. unfold getPeer.
    destruct (decide (Peer.remove data = Some true)) as [Hr|Hr].
    + rewrite Hremove, bool_decide_true by done. cbn.
      case_decide as Hid.
      * subst. apply lookup_delete_eq.
      * apply lookup_delete_ne. congruence.
    + rewrite Hadd by done. cbn [fst snd].
      rewrite (bool_decide_false (Peer.remove data = Some true)) by done. cbn.
      case_decide as Hid.
      * subst. apply lookup_insert_eq.
      * apply lookup_insert_ne. congruence.
  - intros gone Hr Hgone Hid Hnew.
    rewrite Hadd by done. cbn [fst snd].
    unfold handleServerMessage, try_catch, emit, bind, get, modify, tell.
    rewrite bool_decide_true by done. cbn. rewrite Hid.
    rewrite delete_insert_id by done. by destruct c.
Qed.

Lemma peer_frames_maintain_known_peers_witness :
  handleServerMessage rtc0 (PeerMessage (Peer.mk "b1" "Bob" (Some true))) alice_offering
  = (Return tt,
     set_peers (delete "b1" (peers alice_offering)) alice_offering,
     [Emit (peerremoved (Peer.mk "b1" "Bob" (Some true))) []])
  ∧ peerConnection
      (handleServerMessage rtc0 (PeerMessage (Peer.mk "b1" "Bob" (Some true)))
         alice_offering).1.2
    = Some (session_with_bob []).
Proof.
  split; [|reflexivity].
  exact (proj1 (peer_frames_maintain_known_peers rtc0 alice_offering
                  (Peer.mk "b1" "Bob" (Some true))) eq_refl).
Defined.

(** X16. Inbound candidates at the two ends of a negotiation. Without a
    peer connection the frame is answered by a logged "No peer
    connection" and nothing else. Once the remote description is set, a
    candidate from the connected peer goes to the transport at once and
    the queue is not used; if the transport refuses it, that is logged
    and the client carries on. *)
Theorem candidates_outside_the_queue (rtc : RTC.t) (c : WebRTCClient)
    (data : IceCandidate.t) :
  (peerConnection c = None →
     handleServerMessage rtc (Rtc (IceCandidateMessage data)) c
     = (Return tt, c, [ConsoleWarn (Caught (mkError "No peer connection"))]))
  ∧ (∀ pc d,
       peerConnection c = Some pc →
       IceCandidate.id data = Peer.id (peer pc) →
       remoteDescription (connection pc) = Some d →
       handleServerMessage rtc (Rtc (IceCandidateMessage data)) c
       = (Return tt, c,
          AddIceCandidate (IceCandidate.candidate data)
            :: match RTC.addIceCandidate rtc (connection pc)
                       (IceCandidate.candidate data) with
               | Some e => [ConsoleWarn (ErrorAddingIceCandidate
                                           (IceCandidate.candidate data) e)]
               | None => []
               end)).
Proof.
  split.
  - intros Hpc.
    unfold handleServerMessage, try_catch, addIceCandidate, getPeerConnection, bind, get.
    by rewrite Hpc.
  - intros pc d Hpc Hid Hremote.
    rewrite (icecandidate_applied rtc c pc data d) by done.
    unfold drained. cbn. by rewrite app_nil_r.
Qed.

Lemma candidates_outside_the_queue_witness :
  handleServerMessage rtc0
    (Rtc (IceCandidateMessage (IceCandidate.mk "b1" "a1" "good"))) alice_idle
  = (Return tt, alice_idle, [ConsoleWarn (Caught (mkError "No peer connection"))]).
Proof.
  exact (proj1 (candidates_outside_the_queue rtc0 alice_idle
                  (IceCandidate.mk "b1" "a1" "good")) eq_refl).
Defined.

(** X17. The setter of [name]. Setting the name it already has does
    nothing. A new name is recorded and, with the relay socket
    connected, announced at once by an [identify] with the client's id.
    Without a socket the setter does not throw: the name is recorded,
    nothing is sent, and the [identify] that answers the next [ready]
    frame carries the new name. *)
Theorem name_setter (rtc : RTC.t) (c : WebRTCClient) (value : string) :
  (value = name c → setName value c = (Return tt, c, []))
  ∧ (value ≠ name c →
     ∀ s, socket c = Some s →
          setName value c
          = (Return tt, set_name value c,
             [SocketSend s (IdentifyMessage
                              {| Peer.id := id c; Peer.name := value;
                                 Peer.remove := None |})]))
  ∧ (socket c = None →
     setName value c = (Return tt, set_name value c, [])
     ∧ ∀ s version_ id_,
         version c = version_ ∨ version c = EmptyString →
         (handleServerMessage rtc (ReadyMessage version_ id_)
            (set_socket (Some s) (set_name value c))).2
         = [SocketSend s (IdentifyMessage
                            {| Peer.id := id_; Peer.name := value;
                               Peer.remove := None |})]).
Proof.
  split; [|split; [|intros Hs; split]].
  - intros ->. unfold setName, bind, get, modify. cbn.
    rewrite bool_decide_false by (intros Hne; by apply Hne). cbn.
    by destruct c.
  - intros Hne s Hs. unfold setName, sendToSignalServer, bind, get, modify, tell. cbn.
    rewrite (bool_decide_true (value ≠ name c)) by done. rewrite Hs. cbn.
    rewrite ?Hs. reflexivity.
  - unfold setName, bind, get, modify. cbn. rewrite Hs.
    rewrite (bool_decide_false (is_Some None)) by (intros [? ?]; done).
    by rewrite andb_false_r.
  - intros s version_ id_ Hversion.
    by rewrite (ready_ok rtc _ version_ id_ s).
Qed.

Lemma name_setter_witness :
  setName "Alicia" alice_idle
  = (Return tt, set_name "Alicia" alice_idle,
     [SocketSend 7 (IdentifyMessage (Peer.mk "a1" "Alicia" None))])
  ∧ setName "Alicia" alice_cut_off = (Return tt, set_name "Alicia" alice_cut_off, []).
Proof.
  split.
  - apply (proj1 (proj2 (name_setter rtc0 alice_idle "Alicia"))); [discriminate|reflexivity].
  - exact (proj1 (proj2 (proj2 (name_setter rtc0 alice_cut_off "Alicia")) eq_refl)).
Defined.

(** X18. [closeStream()] closes the relay socket, stops every track and
    forgets both; the peer connection, if there is one, is not closed.
    When the socket's close event then arrives, no reconnect is
    scheduled. A reconnect timeout that was already pending is not
    cancelled, though: when it elapses, a socket is opened although the
    stream is closed. *)
Theorem closeStream_and_reconnection (rtc : RTC.t) (c : WebRTCClient) :
  let closes := match socket c with Some s => [SocketClose s] | None => [] end in
  let c1 := set_stream None (set_socket None c) in
  closeStream c
  = (Return tt, c1, closes ++ map TrackStop (default [] (stream c)))
  ∧ peerConnection c1 = peerConnection c
  ∧ socket_onclose c1
    = (Return tt, c1, [Emit disconnected (default [] (listeners c !! "disconnected"))])
  ∧ (∀ timer,
       timer ∈ (timers c).*1 →
       deliver rtc (TimeoutElapses timer) c1
       = (Return tt,
          set_nextHandle (S (nextHandle c))
            (set_socket (Some (nextHandle c))
               (set_timers (filter (fun t : nat * nat => t.1 ≠ timer) (timers c)) c1)),
          [NewWebSocket (nextHandle c) (id c)])).
Proof.
  intros closes c1. subst closes c1. repeat split.
  - unfold closeStream, disconnectFromSignalServer, socketClose, bind, get, modify, tell.
    destruct (socket c) eqn:Hsocket; cbn; by rewrite ?app_nil_r.
  - by rewrite socket_onclose_idle by by right.
  - intros timer Hpending.
    unfold deliver, bind, get, isPending. cbn [timers set_stream set_socket].
    rewrite bool_decide_true by done.
    unfold modify, reconnectCallback, connectToSignalServer, bind, get, tell, modify.
    reflexivity.
Qed.

Lemma closeStream_and_reconnection_witness :
  deliver rtc0 (TimeoutElapses 8) (closeStream alice_cut_off).1.2
  = (Return tt,
     set_nextHandle 10
       (set_socket (Some 9)
          (set_timers [] (set_stream None (set_socket None alice_cut_off)))),
     [NewWebSocket 9 "a1"]).
Proof.
  refine (proj2 (proj2 (proj2 (closeStream_and_reconnection rtc0 alice_cut_off))) 8 _).
  by apply list_elem_of_singleton.
Defined.



(** X20. Listeners. After [on(eventName, handler)] an event of that name
    calls the handlers registered before, in the order they were
    registered, and then the new one; a handler that was registered
    already is called once, not twice; events of other names call whom
    they called before; and registering the same handler again changes
    nothing. *)
Theorem on_registers_once (c : WebRTCClient) (eventName_ : RtcEventName)
    (handler : Handler) (event : RtcEvent) :
  let before := default [] (listeners c !! eventName_) in
  let c' := (on eventName_ handler c).1.2 in
  (eventName event = eventName_ →
     emit event c'
     = (Return tt, c',
        [Emit event (if bool_decide (handler ∈ before) then before
                     else before ++ [handler])]))
  ∧ (eventName event ≠ eventName_ →
     emit event c'
     = (Return tt, c', [Emit event (default [] (listeners c !! eventName event))]))
  ∧ on eventName_ handler c' = (Return tt, c', []).
Proof.
  intros before c'. subst before c'. repeat split.
  - intros <-. unfold emit, on, bind, get, modify, tell. cbn.
    by rewrite lookup_insert_eq.
  - intros Hne. unfold emit, on, bind, get, modify, tell. cbn.
    by rewrite lookup_insert_ne by done.
  - unfold on, modify. cbn. rewrite lookup_insert_eq. cbn.
    f_equal. f_equal.
    assert (bool_decide
              (handler ∈ (if bool_decide (handler ∈ default [] (listeners c !! eventName_))
                          then default [] (listeners c !! eventName_)
                          else default [] (listeners c !! eventName_) ++ [handler]))
            = true) as ->.
    { apply bool_decide_eq_true. case_bool_decide; [done|].
      apply elem_of_app. right. by apply list_elem_of_singleton. }
    by rewrite insert_insert_eq.
Qed.

Lemma on_registers_once_witness :
  emit (peerdisconnected "b1") (on "peerdisconnected" 4 alice_idle).1.2
  = (Return tt, (on "peerdisconnected" 4 alice_idle).1.2,
     [Emit (peerdisconnected "b1") [0; 4]]).
Proof.
  exact (proj1 (on_registers_once alice_idle "peerdisconnected" 4 (peerdisconnected "b1"))
               eq_refl).
Defined.

(** X21. No frame from the relay makes its handler throw: what goes
    wrong inside is logged, or lost in the promise of an unawaited
    call. Nor does a frame ever open a socket, arm a timeout, or touch
    the socket, the stream, the closed flag or the reconnect timer. *)
Theorem relay_frames_are_contained (rtc : RTC.t) (message : ServerMessage)
    (c : WebRTCClient) :
  ∃ c' trace,
    handleServerMessage rtc message c = (Return tt, c', trace)
    ∧ closed c' = closed c ∧ socket c' = socket c ∧ stream c' = stream c
    ∧ reconnectTimer c' = reconnectTimer c ∧ timers c' = timers c
    ∧ Forall (fun e => isQuiet e = true) trace.
Proof.
  pose proof (handleServerMessage_returns rtc message c) as Hret.
  destruct (signalling_handleServerMessage rtc message c)
    as [(Hc & Hs & Hst & Hr & Ht & _) Hquiet].
  destruct (handleServerMessage rtc message c) as [[r c'] trace]. cbn in *. subst r.
  by exists c', trace.
Qed.

(** X22. The relay and its clients agree on who is there. Let
    connections identify (each always with the id it was given, ids
    differing between connections), rename themselves, exchange frames
    and close, in any order, starting from an empty relay. Then a client
    that knew nobody at the start and has handled, in order, the frames
    the relay has sent to its socket knows under each id exactly the
    record, as announced, of the other connection registered with that
    id: nobody who has left, nobody twice, not itself. *)
Theorem clients_know_exactly_the_others
    (rtc : RTC.t) (idOf : WebSocket → string) `{!Inj (=) (=) idOf}
    (inputs : list Relay.Input) (c : WebRTCClient) :
  Forall (Relay.honest idOf) inputs →
  Relay.orderly inputs →
  peers c = ∅ →
  let trace := (Relay.steps inputs []).1 in
  let connections := (Relay.steps inputs []).2 in
  ∀ s p, (s, p) ∈ connections →
    ∀ peerId record,
      getPeer peerId (after rtc (delivered (Server.sentTo s trace)) c).1 = Some record
      ↔ ∃ s' p', (s', p') ∈ connections ∧ s' ≠ s
                 ∧ Peer.id p' = peerId ∧ record = Peer.with_remove p' None.
Proof.
  intros Hhonest Horderly Hnobody trace connections s p Hin peerId record.
  subst trace connections. unfold getPeer.
  rewrite peers_after_frames, Hnobody.
  assert (Relay.consistent idOf [] []) as Hstart.
  { split; [constructor|]. split; intros ? ? Hnil; by apply elem_of_nil in Hnil. }
  destruct (RelayFacts.steps_consistent idOf inputs [] [] Hstart) as (_ & _ & Hviews);
    try done.
  exact (Hviews s p Hin peerId record).
Qed.

Lemma clients_know_exactly_the_others_witness :
  getPeer "ii"
    (after rtc0
       (delivered
          (Server.sentTo 1
             (Relay.steps
                [Relay.Frame 1 (IdentifyMessage (Peer.mk "i" "Alice" None));
                 Relay.Frame 2 (IdentifyMessage (Peer.mk "ii" "Bob" None));
                 Relay.Frame 3 (IdentifyMessage (Peer.mk "iii" "Carol" None));
                 Relay.Frame 2 (IdentifyMessage (Peer.mk "ii" "Robert" None));
                 Relay.Closed 3] []).1))
       (constructor (Some "Alice") 0)).1
  = Some (Peer.mk "ii" "Robert" None).
Proof.
  refine (proj2 (clients_know_exactly_the_others rtc0 tally (Inj0 := tally_inj)
                   [Relay.Frame 1 (IdentifyMessage (Peer.mk "i" "Alice" None));
                    Relay.Frame 2 (IdentifyMessage (Peer.mk "ii" "Bob" None));
                    Relay.Frame 3 (IdentifyMessage (Peer.mk "iii" "Carol" None));
                    Relay.Frame 2 (IdentifyMessage (Peer.mk "ii" "Robert" None));
                    Relay.Closed 3]
                   (constructor (Some "Alice") 0) _ _ eq_refl
                   1 (Peer.mk "i" "Alice" None) _
                   "ii" (Peer.mk "ii" "Robert" None)) _).
  - repeat constructor.
  - cbn. repeat split. apply not_elem_of_nil.
  - cbn. apply elem_of_cons. by left.
  - exists 2, (Peer.mk "ii" "Robert" None). cbn. repeat split; try done.
    apply elem_of_cons. right. apply elem_of_cons. by left.
Defined.

(** X23. What a normal return means. If [invite(peerId)] returns
    without throwing, the peer was known, a peer connection for it has
    been created, and the last thing the call did was to send, on the
    relay socket, an [offer] with a non-empty sdp, the client's own id
    as source and [peerId] as target. If [accept(offer)] returns without
    throwing, the offerer was known and filed under the offer's source,
    the offer is the remote description of the new peer connection, the
    [onicecandidate] handler is installed, and the last thing sent was
    an [accept] with the client's own id as source and the offerer as
    target. *)
Theorem resolved_means_sent (rtc : RTC.t) (c c' : WebRTCClient) (trace : list Event) :
  (∀ peerId,
     invite rtc peerId c = (Return tt, c', trace) →
     ∃ s offer_ peer_ before,
       peers c !! peerId = Some peer_
       ∧ socket c = Some s
       ∧ truthy (sd_sdp offer_) = true
       ∧ peerConnection c'
         = Some {| peer := peer_;
                   connection := {| remoteDescription := None; onicecandidate := None |};
                   channel := {| readyState := connecting |};
                   iceCandidates := [] |}
       ∧ trace = before
                 ++ [SocketSend s (OfferMessage
                                     {| Description.type := sd_type offer_;
                                        Description.sdp := sd_sdp offer_;
                                        Description.source := id c;
                                        Description.target := peerId |})])
  ∧ (∀ offer_,
       accept rtc offer_ c = (Return tt, c', trace) →
       ∃ s answer peer_ before,
         peers c !! Description.source offer_ = Some peer_
         ∧ Peer.id peer_ = Description.source offer_
         ∧ socket c = Some s
         ∧ truthy (sd_sdp answer) = true
         ∧ peerConnection c'
           = Some {| peer := peer_;
                     connection :=
                       {| remoteDescription := Some offer_;
                          onicecandidate := Some (Description.source offer_) |};
                     channel := {| readyState := connecting |};
                     iceCandidates := [] |}
         ∧ trace = before
                   ++ [SocketSend s (AcceptMessage
                                       {| Description.type := sd_type answer;
                                          Description.sdp := sd_sdp answer;
                                          Description.source := id c;
                                          Description.target :=
                                            Description.source offer_ |})]).
Proof.
  split.
  - intros peerId Hrun.
    destruct (createPeerConnection_cases c peerId)
      as [[e He]|(stream_ & peer_ & Hstream & Hnone & Hpeer)].
    { unfold invite in Hrun. unfold bind at 1 in Hrun. by rewrite He in Hrun. }
    unfold invite in Hrun. unfold bind at 1 in Hrun.
    rewrite (createPeerConnection_ok c peerId stream_ peer_) in Hrun by done.
    unfold sendToSignalServer, await, settled, bind, get in Hrun.
    destruct (RTC.createOffer rtc _) as [offer_|e]; cbn in Hrun; [|done].
    destruct (truthy (sd_sdp offer_)) eqn:Hsdp; cbn in Hrun; [|done].
    destruct (RTC.setLocalDescription rtc _ offer_); cbn in Hrun; [done|].
    destruct (socket c) as [s|] eqn:Hsocket; cbn in Hrun; [|done].
    injection Hrun as <- <-.
    exists s, offer_, peer_.
    exists ([NewRTCPeerConnection; CreateDataChannel]
              ++ map AddTrack stream_ ++ [CreateOffer; SetLocalDescription offer_]).
    repeat split; try done.
    rewrite ?app_nil_r, <- ?app_assoc. reflexivity.
  - intros offer_ Hrun.
    destruct (createPeerConnection_cases c (Description.source offer_))
      as [[e He]|(stream_ & peer_ & Hstream & Hnone & Hpeer)].
    { unfold accept in Hrun. cbv zeta in Hrun. unfold bind at 1 in Hrun.
      by rewrite He in Hrun. }
    unfold accept in Hrun. cbv zeta in Hrun. unfold bind at 1 in Hrun.
    rewrite (createPeerConnection_ok c _ stream_ peer_) in Hrun by done.
    unfold bind at 1 in Hrun.
    set (pc := {| peer := peer_;
                  connection := {| remoteDescription := None; onicecandidate := None |};
                  channel := {| readyState := connecting |};
                  iceCandidates := [] |}) in *.
    destruct (decide (Description.source offer_ = Peer.id peer_)) as [Hid|Hid];
      [|by rewrite (setRemoteDescription_mismatch rtc _ pc) in Hrun].
    destruct (RTC.setRemoteDescription rtc (connection pc) offer_) as [e|] eqn:Hremote;
      [by rewrite (setRemoteDescription_refused rtc _ pc _ e) in Hrun|].
    rewrite (setRemoteDescription_accepted rtc _ pc) in Hrun by done.
    unfold deref, sendToSignalServer, updatePeerConnection, await, settled,
      bind, get, modify, ret in Hrun.
    cbn in Hrun.
    destruct (RTC.createAnswer rtc _) as [answer|e]; cbn in Hrun; [|done].
    destruct (truthy (sd_sdp answer)) eqn:Hsdp; cbn in Hrun; [|done].
    destruct (RTC.setLocalDescription rtc _ answer); cbn in Hrun; [done|].
    destruct (socket c) as [s|] eqn:Hsocket; cbn in Hrun; [|done].
    injection Hrun as <- <-.
    exists s, answer, peer_.
    exists ([NewRTCPeerConnection; CreateDataChannel]
              ++ map AddTrack stream_
              ++ [SetRemoteDescription offer_; CreateAnswer; SetLocalDescription answer]).
    repeat split; try done.
    rewrite ?app_nil_r, <- ?app_assoc. reflexivity.
Qed.

Lemma resolved_means_sent_witness :
  ∃ s offer_ peer_ before,
    peers alice_idle !! "b1" = Some peer_
    ∧ socket alice_idle = Some s
    ∧ truthy (sd_sdp offer_) = true
    ∧ peerConnection alice_offering
      = Some {| peer := peer_;
                connection := {| remoteDescription := None; onicecandidate := None |};
                channel := {| readyState := connecting |};
                iceCandidates := [] |}
    ∧ [NewRTCPeerConnection; CreateDataChannel; AddTrack "audio"; AddTrack "video";
       CreateOffer; SetLocalDescription {| sd_type := "offer"; sd_sdp := Some "v=0 o" |};
       SocketSend 7 (OfferMessage (Description.mk "offer" (Some "v=0 o") "a1" "b1"))]
      = before
        ++ [SocketSend s (OfferMessage
                            {| Description.type := sd_type offer_;
                               Description.sdp := sd_sdp offer_;
                               Description.source := id alice_idle;
                               Description.target := "b1" |})].
Proof.
  exact (proj1 (resolved_means_sent rtc0 alice_idle alice_offering _) "b1" eq_refl).
Defined.



(** X26. The handshake registers the client under the id the relay
    gave it. The [identify] with which a client answers
    [ready {version, id}] (cached version equal or absent, socket
    connected) carries that [id] and the client's name; every later
    change of name is announced with the same [id]; and once the relay
    has handled the [identify] from some socket, its registry holds
    that id and name for the socket. *)
Theorem handshake_registers_assigned_id (rtc : RTC.t) (c : WebRTCClient)
    (version_ id_ : string) (s : WebSocket)
    (connections : Server.Connections) (relaySocket : WebSocket) :
  version c = version_ ∨ version c = EmptyString →
  socket c = Some s →
  let hello := {| Peer.id := id_; Peer.name := name c; Peer.remove := None |} in
  let c1 := (handleServerMessage rtc (ReadyMessage version_ id_) c).1.2 in
  (handleServerMessage rtc (ReadyMessage version_ id_) c).2
  = [SocketSend s (IdentifyMessage hello)]
  ∧ (∀ value, value ≠ name c →
       (setName value c1).2
       = [SocketSend s (IdentifyMessage
                          {| Peer.id := id_; Peer.name := value; Peer.remove := None |})])
  ∧ Server.get
      (Server.handleMessage (IdentifyMessage hello) relaySocket connections).2
      relaySocket
    = Some hello.
Proof.
  intros Hversion Hs hello c1. subst hello c1.
  rewrite (ready_ok rtc c version_ id_ s) by done. cbn [fst snd].
  split; [done|]. split.
  - intros value Hne.
    unfold setName, sendToSignalServer, bind, get, modify, tell. cbn.
    rewrite (bool_decide_true (value ≠ name c)) by done. rewrite Hs. cbn.
    rewrite ?Hs. reflexivity.
  - apply RelayFacts.get_set_eq.
Qed.

Lemma handshake_registers_assigned_id_witness :
  (handleServerMessage rtc0 (ReadyMessage "1700000000000" "a7") alice_idle).2
  = [SocketSend 7 (IdentifyMessage (Peer.mk "a7" "Alice" None))].
Proof.
  exact (proj1 (handshake_registers_assigned_id rtc0 alice_idle "1700000000000" "a7" 7
                  alice_and_bob 1 (or_introl eq_refl) eq_refl)).
Defined.

End ApiSpec.
